(** * Real-time trip processing: the matcher lambda and the KPI job

    A shallow embedding of [scripts/lambda2.py] (the stream handler that pairs
    a trip start with a trip end and writes the completed trip) and of
    [scripts/glue_scripts.py] (the job that scans the table and groups fares
    by pickup date), with the properties of both that the design document
    states.

    Python dictionaries keep insertion order and the merge loop of
    [create_completed_trip] tests membership in the dictionary it is filling,
    so a dictionary is an association list in insertion order whose keys are
    pairwise distinct. *)

From Stdlib Require Import String Ascii List Bool ZArith Lia Sorted.
Import ListNotations.

Open Scope string_scope.
Open Scope list_scope.

(** ** Python dictionaries with string keys *)

Section Dict.

Context {V : Type}.

Definition dict : Type := list (string * V).

(** [d.get(k)], with [None] for an absent key. *)
Fixpoint dict_get (d : dict) (k : string) : option V :=
  match d with
  | [] => None
  | (k', v) :: rest => if String.eqb k' k then Some v else dict_get rest k
  end.

(** [d.get(k, default)]. *)
Definition dict_get_default (d : dict) (k : string) (default : V) : V :=
  match dict_get d k with
  | Some v => v
  | None => default
  end.

(** [k in d]. *)
Definition dict_mem (d : dict) (k : string) : bool :=
  match dict_get d k with
  | Some _ => true
  | None => false
  end.

(** [d[k] = v]: the value of an existing key is replaced where the key
    stands, a new key goes to the end. *)
Fixpoint dict_set (d : dict) (k : string) (v : V) : dict :=
  match d with
  | [] => [(k, v)]
  | (k', v') :: rest =>
      if String.eqb k' k then (k', v) :: rest else (k', v') :: dict_set rest k v
  end.

(** [list(d.keys())]. *)
Definition dict_keys (d : dict) : list string := map fst d.

(** The invariant of a Python dictionary: no key stands twice. *)
Definition dict_wf (d : dict) : Prop := NoDup (dict_keys d).

End Dict.

Arguments dict V : clear implicits.

(** [k in [k1, ..., kn]] for a list literal of strings. *)
Definition in_list (k : string) (l : list string) : bool :=
  existsb (String.eqb k) l.

Arguments in_list : simpl never.


(** *** Lookup after update *)

Section DictFacts.

Context {V : Type}.
Implicit Types (d : dict V) (k : string) (v : V).

Lemma dict_get_set_same d k v : dict_get (dict_set d k v) k = Some v.
Proof.
  induction d as [|[k' v'] d IH]; simpl.
  - now rewrite String.eqb_refl.
  - destruct (String.eqb k' k) eqn:E; simpl; rewrite E; auto.
Qed.

Lemma dict_get_set_other d k k' v :
  k <> k' -> dict_get (dict_set d k v) k' = dict_get d k'.
Proof.
  intros Hne. induction d as [|[k0 v0] d IH]; simpl.
  - destruct (String.eqb k k') eqn:E; auto.
    apply String.eqb_eq in E. contradiction.
  - destruct (String.eqb k0 k) eqn:E; simpl.
    + apply String.eqb_eq in E. subst k0.
      destruct (String.eqb k k') eqn:E'; auto.
      apply String.eqb_eq in E'. contradiction.
    + now rewrite IH.
Qed.

Lemma dict_mem_set_same d k v : dict_mem (dict_set d k v) k = true.
Proof. unfold dict_mem. now rewrite dict_get_set_same. Qed.

Lemma dict_mem_set_other d k k' v :
  k <> k' -> dict_mem (dict_set d k v) k' = dict_mem d k'.
Proof. intros H. unfold dict_mem. now rewrite dict_get_set_other. Qed.

(** An update never removes a key. *)
Lemma dict_mem_set_mono d k k' v :
  dict_mem d k' = true -> dict_mem (dict_set d k v) k' = true.
Proof.
  intros H. destruct (String.eqb k k') eqn:E.
  - apply String.eqb_eq in E. subst. apply dict_mem_set_same.
  - apply String.eqb_neq in E. now rewrite dict_mem_set_other.
Qed.

Lemma dict_get_none_not_key d k :
  dict_get d k = None -> ~ In k (dict_keys d).
Proof.
  induction d as [|[k' v'] d IH]; simpl; intros H; [tauto|].
  destruct (String.eqb k' k) eqn:E; [discriminate|].
  apply String.eqb_neq in E. intros [Hk|Hk]; [contradiction|]. now apply IH.
Qed.

Lemma in_list_false k l : in_list k l = false -> ~ In k l.
Proof.
  unfold in_list. intros H Hin.
  assert (existsb (String.eqb k) l = true) as Ht.
  { apply existsb_exists. exists k. split; auto. apply String.eqb_refl. }
  congruence.
Qed.

Lemma in_list_true k l : in_list k l = true -> In k l.
Proof.
  unfold in_list. intros H. apply existsb_exists in H as [x [Hin Heq]].
  apply String.eqb_eq in Heq. now subst.
Qed.

(** Two dictionaries with the same keys in the same order, and the same
    values except perhaps under the keys of [D]. *)
Definition agree_outside (D : list string) (d1 d2 : dict V) : Prop :=
  Forall2
    (fun p q => fst p = fst q /\ (in_list (fst p) D = false -> snd p = snd q))
    d1 d2.

Lemma agree_outside_keys D d1 d2 :
  agree_outside D d1 d2 -> dict_keys d1 = dict_keys d2.
Proof.
  induction 1 as [|[k1 v1] [k2 v2] d1 d2 [Hk _] _ IH]; simpl in *; congruence.
Qed.

Lemma agree_outside_mem D d1 d2 k :
  agree_outside D d1 d2 -> dict_mem d1 k = dict_mem d2 k.
Proof.
  unfold dict_mem.
  induction 1 as [|[k1 v1] [k2 v2] d1 d2 [Hk _] _ IH]; simpl in *; auto.
  subst k2. now destruct (String.eqb k1 k).
Qed.

Lemma agree_outside_get D d1 d2 k :
  agree_outside D d1 d2 -> in_list k D = false ->
  dict_get d1 k = dict_get d2 k.
Proof.
  intros H HD.
  induction H as [|[k1 v1] [k2 v2] d1 d2 [Hk Hv] _ IH]; simpl in *; auto.
  subst k2. destruct (String.eqb k1 k) eqn:E; auto.
  apply String.eqb_eq in E. subst k1. now rewrite Hv.
Qed.

Lemma agree_outside_set D d1 d2 k v :
  agree_outside D d1 d2 -> agree_outside D (dict_set d1 k v) (dict_set d2 k v).
Proof.
  induction 1 as [|[k1 v1] [k2 v2] d1 d2 [Hk Hv] Hrest IH]; simpl in *.
  - repeat constructor.
  - subst k2. destruct (String.eqb k1 k).
    + constructor; auto.
    + constructor; auto.
Qed.

End DictFacts.

(** ** DynamoDB attribute values

    An attribute value as the stream and the low-level client give it: a
    type tag and its payload. The handler reads the tags [S], [N], [BOOL]
    and [NULL], the KPI job the tags [S] and [N]; both pass over every other
    tag. *)

Inductive attr : Type :=
  | AttrS (s : string)
  | AttrN (n : string)
  | AttrBOOL (b : bool)
  | AttrNULL
  | AttrOther (tag : string).

(** [image.get(k, {}).get('S')]: the string under a key of an attribute
    map, when there is one. *)
Definition attr_S_of (image : dict attr) (k : string) : option string :=
  match dict_get image k with
  | Some (AttrS s) => Some s
  | _ => None
  end.

Arguments attr_S_of : simpl never.

(** ** [scripts/lambda2.py] *)

Module Lambda2.

Section Matcher.

(** Python's [decimal.Decimal] belongs to the standard library, not to the
    repository: its values, its constructor from a string ([None] when the
    constructor raises [InvalidOperation]) and its [str] are taken as given. *)
Variable decimal : Type.
Variable Decimal : string -> option decimal.
Variable decimal_str : decimal -> string.

(** The scalar values an event field holds: what the handler decodes from a
    stream image (lines 217-228) and what the table resource returns for the
    same attribute types. *)
Inductive value : Type :=
  | VStr (s : string)
  | VNum (n : decimal)
  | VBool (b : bool)
  | VNone.

Definition item : Type := dict value.

(** [f"{v}"]: the text an f-string puts for a value. *)
Definition format (v : value) : string :=
  match v with
  | VStr s => s
  | VNum n => decimal_str n
  | VBool true => "True"
  | VBool false => "False"
  | VNone => "None"
  end.

(** What [create_completed_trip] reads from outside its arguments, in the
    order it reads them: [datetime.utcnow().isoformat()] for the default of
    [dropoff_datetime] (line 80; Python evaluates the default whether or not
    the key is present), [datetime.utcnow().isoformat()] for
    [processing_timestamp_lambda2] (line 88) and [str(uuid.uuid4())]
    (line 89). *)
Record ambient : Type := {
  utcnow_dropoff : string;
  utcnow_processing : string;
  uuid4 : string
}.

(** The keys both copy loops leave out (lines 94 and 99). *)
Definition skipped_keys : list string :=
  ["PK"; "SK"; "status"; "processing_timestamp_lambda1"].

(** The keys an end field overwrites instead of being renamed (line 101). *)
Definition overwritten_keys : list string := ["trip_id"; "data_type"].

(** No end field, renamed with the prefix [end_], lands on the key [k]. *)
Definition not_renamed_onto (end_event : item) (k : string) : Prop :=
  forall k', In k' (dict_keys end_event) -> k <> ("end_" ++ k')%string.

(** The record of lines 83-90. *)
Definition basic_record (amb : ambient) (start_event end_event : item) : item :=
  let trip_id := dict_get_default start_event "PK" VNone in
  let dropoff_datetime :=
    dict_get_default end_event "dropoff_datetime" (VStr (utcnow_dropoff amb)) in
  [ ("PK", trip_id);
    ("SK", VStr ("COMPLETED#" ++ format dropoff_datetime)%string);
    ("trip_id", trip_id);
    ("status", VStr "completed");
    ("processing_timestamp_lambda2", VStr (utcnow_processing amb));
    ("correlation_id", VStr (uuid4 amb)) ].

(** One round of the loop of lines 93-95. *)
Definition copy_start_field (completed_trip : item) (kv : string * value) : item :=
  let '(key, value) := kv in
  if in_list key skipped_keys then completed_trip
  else dict_set completed_trip key value.

(** One round of the loop of lines 98-104. *)
Definition copy_end_field (completed_trip : item) (kv : string * value) : item :=
  let '(key, value) := kv in
  if in_list key skipped_keys then completed_trip
  else if dict_mem completed_trip key && negb (in_list key overwritten_keys)
  then dict_set completed_trip ("end_" ++ key)%string value
  else dict_set completed_trip key value.

Definition copy_start (completed_trip start_event : item) : item :=
  fold_left copy_start_field start_event completed_trip.

Definition copy_end (completed_trip end_event : item) : item :=
  fold_left copy_end_field end_event completed_trip.

(** [create_completed_trip(start_event, end_event)], lines 66-109. *)
Definition create_completed_trip
  (amb : ambient) (start_event end_event : item) : item :=
  let completed_trip := basic_record amb start_event end_event in
  let completed_trip := copy_start completed_trip start_event in
  let completed_trip := copy_end completed_trip end_event in
  dict_set completed_trip "data_type" (VStr "completed_trip").

(** *** The table, the clock and the calls made to them

    The handler talks to one DynamoDB table through three calls of the
    boto3 table resource ([query], [put_item], [update_item]) and reads the
    clock and the uuid generator. None of these is code of the repository.
    The table is the list of its items in key order, by [PK] and then by
    [SK], so that the items of one [PK] stand in the order of their sort
    keys, which is the order a query answers in; the items are addressed by
    the string pair ([PK], [SK]) and a write keeps the order
    ([table_upsert], [table_upsert_ordered]). A call that the service
    rejects or cannot serve raises and changes nothing. What the service
    answers to each call in turn is an input of the model ([replies]), so
    every pattern of failures can be played. Every call is recorded in
    [calls], oldest first. *)

Inductive reply : Type :=
  | Answers   (* the call is served *)
  | Fails     (* the call raises: service unavailable, throttled, timed out *)
  | Garbled.  (* the call is served, the response lacks its expected fields *)

Inductive exn : Type :=
  | KeyError
  | ClientError
  | ValidationException
  | InvalidOperation.

Inductive call : Type :=
  | Query (pk : option string) (sk_prefix : string)
  | PutItem (it : item) (ok : bool)
  | UpdateItem (pk sk : value) (new_status : string) (ok : bool).

Record world : Type := {
  table : list item;
  replies : list reply;
  clock : nat -> string;
  ticks : nat;
  uuids : nat -> string;
  drawn : nat;
  calls : list call
}.

Inductive outcome (A : Type) : Type :=
  | Returned (a : A)
  | Raised (e : exn).

Arguments Returned {A} a.
Arguments Raised {A} e.

(** Code that may raise and may change the world. *)
Definition M (A : Type) : Type := world -> outcome A * world.

Definition ret {A} (a : A) : M A := fun w => (Returned a, w).

Definition raise {A} (e : exn) : M A := fun w => (Raised e, w).

Definition bind {A B} (m : M A) (k : A -> M B) : M B :=
  fun w =>
    match m w with
    | (Returned a, w') => k a w'
    | (Raised e, w') => (Raised e, w')
    end.

(** [try: m  except Exception as e: h e]. *)
Definition try_except {A} (m : M A) (h : exn -> M A) : M A :=
  fun w =>
    match m w with
    | (Returned a, w') => (Returned a, w')
    | (Raised e, w') => h e w'
    end.

Notation "x <- m ;; k" := (bind m (fun x => k))
  (at level 61, m at next level, right associativity).

Definition set_table (t : list item) (w : world) : world :=
  {| table := t; replies := replies w; clock := clock w; ticks := ticks w;
     uuids := uuids w; drawn := drawn w; calls := calls w |}.

Definition record_call (c : call) (w : world) : world :=
  {| table := table w; replies := replies w; clock := clock w; ticks := ticks w;
     uuids := uuids w; drawn := drawn w; calls := calls w ++ [c] |}.

(** The service's answer to the next call. *)
Definition next_reply (w : world) : reply * world :=
  match replies w with
  | [] => (Answers, w)
  | r :: rest =>
      (r, {| table := table w; replies := rest; clock := clock w;
             ticks := ticks w; uuids := uuids w; drawn := drawn w;
             calls := calls w |})
  end.

(** [datetime.utcnow().isoformat()]. *)
Definition utcnow : M string :=
  fun w =>
    (Returned (clock w (ticks w)),
     {| table := table w; replies := replies w; clock := clock w;
        ticks := S (ticks w); uuids := uuids w; drawn := drawn w;
        calls := calls w |}).

(** [str(uuid.uuid4())]. *)
Definition new_uuid : M string :=
  fun w =>
    (Returned (uuids w (drawn w)),
     {| table := table w; replies := replies w; clock := clock w;
        ticks := ticks w; uuids := uuids w; drawn := S (drawn w);
        calls := calls w |}).

(** The key of an item: both key attributes are strings in the table's
    schema. *)
Definition key_of (pk sk : option value) : option (string * string) :=
  match pk, sk with
  | Some (VStr p), Some (VStr s) => Some (p, s)
  | _, _ => None
  end.

Arguments key_of : simpl never.

Definition item_key (it : item) : option (string * string) :=
  key_of (dict_get it "PK") (dict_get it "SK").

Definition key_eqb (k1 k2 : string * string) : bool :=
  String.eqb (fst k1) (fst k2) && String.eqb (snd k1) (snd k2).

Definition has_key (k : string * string) (it : item) : bool :=
  match item_key it with
  | Some k' => key_eqb k' k
  | None => false
  end.

Definition table_lookup (k : string * string) (t : list item) : option item :=
  find (has_key k) t.

(** The order of keys: by [PK], then by [SK], each as strings of bytes. *)
Definition key_ltb (k1 k2 : string * string) : bool :=
  String.ltb (fst k1) (fst k2)
  || (String.eqb (fst k1) (fst k2) && String.ltb (snd k1) (snd k2)).

(** The item's key comes after [k]. *)
Definition key_after (k : string * string) (it : item) : bool :=
  match item_key it with
  | Some k' => key_ltb k k'
  | None => false
  end.

(** Last writer wins: the item stored under the key is replaced, an item
    with a new key is added at its place in the order of keys. *)
Fixpoint table_upsert (k : string * string) (it : item) (t : list item)
  : list item :=
  match t with
  | [] => [it]
  | x :: rest =>
      if has_key k x then it :: rest
      else if key_after k x then it :: x :: rest
      else x :: table_upsert k it rest
  end.

(** [table.put_item(Item=it)]. An item without a string [PK] and [SK] is
    rejected whatever the state of the service. *)
Definition table_put_item (it : item) : M unit :=
  fun w =>
    let '(r, w) := next_reply w in
    match r, item_key it with
    | Fails, _ => (Raised ClientError, record_call (PutItem it false) w)
    | _, None => (Raised ValidationException, record_call (PutItem it false) w)
    | _, Some k =>
        (Returned tt,
         record_call (PutItem it true)
           (set_table (table_upsert k it (table w)) w))
    end.

(** [table.query(...)] with the key condition
    [PK = :pk AND begins_with(SK, :sk_prefix)]: [Some] of the response's
    [Items], or [None] for a response that has no [Items]. The items come
    in the order of the table, which is the order of their sort keys under
    one [PK]. A [pk] that is not a string does not match the key schema and
    is rejected. *)
Definition table_query (pk : option string) (sk_prefix : string)
  : M (option (list item)) :=
  fun w =>
    let '(r, w) := next_reply w in
    let w := record_call (Query pk sk_prefix) w in
    match r, pk with
    | Fails, _ => (Raised ClientError, w)
    | _, None => (Raised ValidationException, w)
    | Garbled, Some _ => (Returned None, w)
    | Answers, Some p =>
        (Returned
           (Some
              (filter
                 (fun it =>
                    match item_key it with
                    | Some (p', s) => String.eqb p' p && String.prefix sk_prefix s
                    | None => false
                    end)
                 (table w))),
         w)
    end.

(** [table.update_item(Key=..., UpdateExpression="SET #status = ...,
    processed_at = ...")]: the two attributes are set on the item under the
    key, which is created when it does not exist. *)
Definition table_update_item
  (pk sk : value) (new_status processed_at : string) : M unit :=
  fun w =>
    let '(r, w) := next_reply w in
    match r, key_of (Some pk) (Some sk) with
    | Fails, _ =>
        (Raised ClientError, record_call (UpdateItem pk sk new_status false) w)
    | _, None =>
        (Raised ValidationException,
         record_call (UpdateItem pk sk new_status false) w)
    | _, Some k =>
        let old :=
          match table_lookup k (table w) with
          | Some it => it
          | None => [("PK", pk); ("SK", sk)]
          end in
        let new :=
          dict_set (dict_set old "status" (VStr new_status))
            "processed_at" (VStr processed_at) in
        (Returned tt,
         record_call (UpdateItem pk sk new_status true)
           (set_table (table_upsert k new (table w)) w))
    end.

(** [it[k]]. *)
Definition index (it : item) (k : string) : M value :=
  match dict_get it k with
  | Some v => ret v
  | None => raise KeyError
  end.

(** *** The helpers of the handler *)

(** [find_counterpart_event(trip_id, data_type)], lines 27-63. The
    [except] clause of line 61 turns every exception of the query, and the
    [KeyError] of [response['Items']] on a response without [Items], into
    the return value [None]. *)
Definition find_counterpart_event (trip_id : option string) (data_type : string)
  : M (option item) :=
  let counterpart_data_type :=
    if String.eqb data_type "trip_start" then "trip_end" else "trip_start" in
  let sk_prefix := ("RAW#" ++ counterpart_data_type ++ "#")%string in
  try_except
    (response <- table_query trip_id sk_prefix ;;
     match response with
     | None => raise KeyError
     | Some [] => ret None
     | Some (first :: _) => ret (Some first)
     end)
    (fun _ => ret None).

(** [create_completed_trip] as the handler runs it: the clock is read twice
    and one uuid is drawn. *)
Definition create_completed_trip_now (start_event end_event : item) : M item :=
  t1 <- utcnow ;;
  t2 <- utcnow ;;
  u <- new_uuid ;;
  ret (create_completed_trip
         {| utcnow_dropoff := t1; utcnow_processing := t2; uuid4 := u |}
         start_event end_event).

(** What a merge started in the world [w] reads from the clock and the uuid
    generator. *)
Definition ambient_of (w : world) : ambient :=
  {| utcnow_dropoff := clock w (ticks w);
     utcnow_processing := clock w (S (ticks w));
     uuid4 := uuids w (drawn w) |}.

(** [update_event_status(item, new_status)], lines 112-142. The message of
    the [except] clause indexes the item again, so a [KeyError] of the [try]
    block is raised a second time, out of the function. *)
Definition update_event_status (it : item) (new_status : string) : M bool :=
  try_except
    (pk <- index it "PK" ;;
     sk <- index it "SK" ;;
     processed_at <- utcnow ;;
     _ <- table_update_item pk sk new_status processed_at ;;
     ret true)
    (fun _ =>
       _ <- index it "PK" ;;
       _ <- index it "SK" ;;
       ret false).

(** The loop of [put_item_with_retry], lines 157-166, from a given
    [retry_count]. Every round returns or adds one to [retry_count], so
    [max_retries - retry_count] rounds are enough: [fuel] is set to that by
    [put_item_with_retry], and [None] (out of fuel) is never its result
    ([put_item_with_retry_total]). *)
Fixpoint put_item_loop
  (fuel : nat) (it : item) (max_retries retry_count : Z)
  : world -> option (outcome (option bool)) * world :=
  fun w =>
    if (retry_count <? max_retries)%Z then
      match fuel with
      | O => (None, w)
      | S fuel' =>
          match table_put_item it w with
          | (Returned _, w') => (Some (Returned (Some true)), w')
          | (Raised _, w') =>
              let retry_count := (retry_count + 1)%Z in
              if (retry_count >=? max_retries)%Z
              then (Some (Returned (Some false)), w')
              else put_item_loop fuel' it max_retries retry_count w'
          end
      end
    else (Some (Returned None), w).

(** [put_item_with_retry(item, max_retries)], lines 145-166: [Some true],
    [Some false], or Python's [None] when the loop is never entered. *)
Definition put_item_with_retry (it : item) (max_retries : Z) : M (option bool) :=
  fun w =>
    match put_item_loop (Z.to_nat max_retries) it max_retries 0 w with
    | (Some r, w') => (r, w')
    | (None, w') => (Returned None, w')
    end.

(** *** Stream records and the handler *)

(** One record of the stream event: [record['eventName']] and
    [record['dynamodb'].get('NewImage')]. *)
Record stream_record : Type := {
  eventName : string;
  NewImage : option (dict attr)
}.

(** One round of the loop of lines 218-228; [Decimal(value['N'])] may
    raise. *)
Definition decode_field (event_item : item) (kv : string * attr)
  : outcome item :=
  let '(key, value) := kv in
  match value with
  | AttrS s => Returned (dict_set event_item key (VStr s))
  | AttrN n =>
      match Decimal n with
      | Some d => Returned (dict_set event_item key (VNum d))
      | None => Raised InvalidOperation
      end
  | AttrBOOL b => Returned (dict_set event_item key (VBool b))
  | AttrNULL => Returned (dict_set event_item key VNone)
  | AttrOther _ => Returned event_item
  end.

Arguments decode_field : simpl never.

Fixpoint decode_image (ddb_item : dict attr) (event_item : item)
  : outcome item :=
  match ddb_item with
  | [] => Returned event_item
  | kv :: rest =>
      match decode_field event_item kv with
      | Returned event_item' => decode_image rest event_item'
      | Raised e => Raised e
      end
  end.

(** Lines 237-242: which of the two items is the start event. *)
Definition assign_roles (data_type : string) (event_item counterpart_item : item)
  : item * item :=
  if String.eqb data_type "trip_start"
  then (event_item, counterpart_item)
  else (counterpart_item, event_item).

(** Lines 236-253: merge, write, and mark both raw events. *)
Definition complete_pair
  (data_type : string) (event_item counterpart_item : item) : M unit :=
  let '(start_event, end_event) :=
    assign_roles data_type event_item counterpart_item in
  completed_trip <- create_completed_trip_now start_event end_event ;;
  written <- put_item_with_retry completed_trip 3 ;;
  match written with
  | Some true =>
      _ <- update_event_status event_item "processed_by_matcher" ;;
      _ <- update_event_status counterpart_item "processed_by_matcher" ;;
      ret tt
  | _ => ret tt
  end.

(** The [try] block of lines 189-255 for one record. *)
Definition record_body (record : stream_record) : M unit :=
  match NewImage record with
  | None => ret tt
  | Some ddb_item =>
      let pk := attr_S_of ddb_item "PK" in
      let sk :=
        match attr_S_of ddb_item "SK" with
        | Some s => s
        | None => ""
        end in
      if negb (String.prefix "RAW#" sk) then ret tt
      else
        match attr_S_of ddb_item "data_type" with
        | None => ret tt
        | Some data_type =>
            if String.eqb data_type ""
               || negb (in_list data_type ["trip_start"; "trip_end"])
            then ret tt
            else
              match decode_image ddb_item [] with
              | Raised e => raise e
              | Returned event_item =>
                  counterpart_item <- find_counterpart_event pk data_type ;;
                  match counterpart_item with
                  | Some (field :: fields) =>
                      complete_pair data_type event_item (field :: fields)
                  | _ => ret tt
                  end
              end
        end
  end.

(** One round of the loop of lines 183-260: a record that is not an insert
    is passed over, and the [except] clause of line 257 ends the round of a
    record whose processing raised. *)
Definition process_record (record : stream_record) (w : world) : world :=
  if negb (String.eqb (eventName record) "INSERT") then w
  else snd (record_body record w).

Record response : Type := {
  statusCode : Z;
  body : string  (* the text given to [json.dumps] *)
}.

(** [lambda_handler(event, context)], lines 169-265; [event] is
    [event.get('Records')]. *)
Definition lambda_handler (event : option (list stream_record)) (w : world)
  : response * world :=
  match event with
  | None =>
      ({| statusCode := 200; body := "Invalid event structure received." |}, w)
  | Some records =>
      ({| statusCode := 200; body := "DynamoDB Stream processing complete." |},
       fold_left (fun w record => process_record record w) records w)
  end.

(** *** Reading the record of calls *)

(** Every [UpdateItem] of the trace comes after a [PutItem] of the trace
    that succeeded ([written] tells whether one has been seen). *)
Fixpoint marks_only_after_write (written : bool) (trace : list call) : bool :=
  match trace with
  | [] => true
  | Query _ _ :: rest => marks_only_after_write written rest
  | PutItem _ ok :: rest => marks_only_after_write (written || ok) rest
  | UpdateItem _ _ _ _ :: rest =>
      written && marks_only_after_write written rest
  end.

(** The items of the writes of the trace that succeeded, oldest first. *)
Fixpoint written_items (trace : list call) : list item :=
  match trace with
  | [] => []
  | PutItem it true :: rest => it :: written_items rest
  | _ :: rest => written_items rest
  end.



(** The sort key of the item, when it has a key, marks a raw event. *)
Definition raw_key (it : item) : Prop :=
  forall p s, item_key it = Some (p, s) -> String.prefix "RAW#" s = true.

(** *** Facts about the two copy loops *)

Lemma skipped_keys_neq k k' :
  in_list k' skipped_keys = false -> In k skipped_keys -> k <> k'.
Proof.
  intros Hs Hin ->. apply in_list_false in Hs. contradiction.
Qed.

Lemma end_prefix_inj k k' : ("end_" ++ k)%string = ("end_" ++ k')%string -> k = k'.
Proof. simpl. intros H. now injection H. Qed.

Lemma copy_start_untouched start_event : forall completed_trip k,
  (forall k', In k' (dict_keys start_event) ->
              in_list k' skipped_keys = false -> k <> k') ->
  dict_get (copy_start completed_trip start_event) k = dict_get completed_trip k.
Proof.
  unfold copy_start.
  induction start_event as [|[k0 v0] rest IH]; intros acc k H; simpl; auto.
  rewrite IH.
  - destruct (in_list k0 skipped_keys) eqn:Es; auto.
    apply dict_get_set_other. intros ->. apply (H k); simpl; auto.
  - intros k' Hin. apply H. simpl. auto.
Qed.

Lemma copy_start_stores start_event : forall completed_trip k v,
  dict_wf start_event ->
  dict_get start_event k = Some v ->
  in_list k skipped_keys = false ->
  dict_get (copy_start completed_trip start_event) k = Some v.
Proof.
  induction start_event as [|[k0 v0] rest IH]; intros acc k v Hwf Hget Hs;
    simpl in *; [discriminate|].
  inversion Hwf as [|? ? Hnotin Hwf']; subst.
  destruct (String.eqb k0 k) eqn:E.
  - apply String.eqb_eq in E. subst k0. injection Hget as ->.
    rewrite Hs.
    change (dict_get (copy_start (dict_set acc k v) rest) k = Some v).
    rewrite copy_start_untouched.
    + apply dict_get_set_same.
    + intros k' Hin _ ->. contradiction.
  - change (dict_get (copy_start (copy_start_field acc (k0, v0)) rest) k = Some v).
    now apply IH.
Qed.

Lemma copy_end_untouched end_event : forall completed_trip k,
  (forall k', In k' (dict_keys end_event) ->
              in_list k' skipped_keys = false ->
              k <> k' /\ k <> ("end_" ++ k')%string) ->
  dict_get (copy_end completed_trip end_event) k = dict_get completed_trip k.
Proof.
  unfold copy_end.
  induction end_event as [|[k0 v0] rest IH]; intros acc k H; simpl; auto.
  rewrite IH.
  - destruct (in_list k0 skipped_keys) eqn:Es; auto.
    destruct (H k0) as [H1 H2]; simpl; auto.
    destruct (dict_mem acc k0 && negb (in_list k0 overwritten_keys));
      apply dict_get_set_other; intros Heq; symmetry in Heq;
      first [exact (H1 Heq) | exact (H2 Heq)].
  - intros k' Hin. apply H. simpl. auto.
Qed.

(** A key already in the record that is not [trip_id] or [data_type] keeps
    its value through the end loop, unless an end field is renamed onto it. *)
Lemma copy_end_keeps end_event : forall completed_trip k,
  dict_mem completed_trip k = true ->
  in_list k overwritten_keys = false ->
  not_renamed_onto end_event k ->
  dict_get (copy_end completed_trip end_event) k = dict_get completed_trip k.
Proof.
  unfold copy_end, not_renamed_onto.
  induction end_event as [|[k0 v0] rest IH]; intros acc k Hmem Ho H; simpl; auto.
  assert (Hk0 : k <> ("end_" ++ k0)%string) by (apply H; simpl; auto).
  assert (Hrest : forall k', In k' (dict_keys rest) -> k <> ("end_" ++ k')%string)
    by (intros k' Hin; apply H; simpl; auto).
  destruct (in_list k0 skipped_keys) eqn:Es; [now apply IH|].
  destruct (dict_mem acc k0 && negb (in_list k0 overwritten_keys)) eqn:Ec.
  - rewrite IH; auto.
    + apply dict_get_set_other. intros Heq. symmetry in Heq. exact (Hk0 Heq).
    + now apply dict_mem_set_mono.
  - assert (k0 <> k) as Hne.
    { intros ->. rewrite Hmem, Ho in Ec. discriminate. }
    rewrite IH; auto.
    + now apply dict_get_set_other.
    + now apply dict_mem_set_mono.
Qed.

(** An end field whose key is already in the record, and is not [trip_id]
    or [data_type], ends up under the key with the prefix [end_]. *)
Lemma copy_end_renames end_event : forall completed_trip k v,
  dict_wf end_event ->
  dict_get end_event k = Some v ->
  in_list k skipped_keys = false ->
  in_list k overwritten_keys = false ->
  dict_mem completed_trip k = true ->
  dict_get (copy_end completed_trip end_event) ("end_" ++ k)%string = Some v.
Proof.
  induction end_event as [|[k0 v0] rest IH];
    intros acc k v Hwf Hget Hs Ho Hmem; simpl in *; [discriminate|].
  inversion Hwf as [|? ? Hnotin Hwf']; subst.
  destruct (String.eqb k0 k) eqn:E.
  - apply String.eqb_eq in E. subst k0. injection Hget as ->.
    unfold copy_end. simpl. rewrite Hs, Hmem, Ho. simpl.
    change (dict_get (copy_end (dict_set acc ("end_" ++ k)%string v) rest)
              ("end_" ++ k)%string = Some v).
    rewrite copy_end_keeps.
    + apply dict_get_set_same.
    + apply dict_mem_set_same.
    + reflexivity.
    + intros k' Hin Heq. apply end_prefix_inj in Heq. subst. contradiction.
  - change (dict_get (copy_end (copy_end_field acc (k0, v0)) rest)
              ("end_" ++ k)%string = Some v).
    apply IH; auto.
    unfold copy_end_field.
    destruct (in_list k0 skipped_keys); auto.
    destruct (dict_mem acc k0 && negb (in_list k0 overwritten_keys));
      now apply dict_mem_set_mono.
Qed.


(** The last assignment (line 107) changes [data_type] only. *)
Lemma create_completed_trip_get amb start_event end_event k :
  k <> "data_type" ->
  dict_get (create_completed_trip amb start_event end_event) k =
  dict_get
    (copy_end (copy_start (basic_record amb start_event end_event) start_event)
       end_event) k.
Proof.
  intros H. unfold create_completed_trip. apply dict_get_set_other. congruence.
Qed.

Lemma skipped_key_generated amb start_event end_event k :
  in_list k skipped_keys = true ->
  dict_get (create_completed_trip amb start_event end_event) k =
  dict_get (basic_record amb start_event end_event) k.
Proof.
  intros Hk. apply in_list_true in Hk.
  rewrite create_completed_trip_get.
  - rewrite copy_end_untouched.
    + apply copy_start_untouched.
      intros k' _ Hs. now apply skipped_keys_neq.
    + intros k' _ Hs. split; [now apply skipped_keys_neq|].
      simpl in Hk. intros ->.
      destruct Hk as [H|[H|[H|[H|[]]]]]; discriminate.
  - simpl in Hk. intros ->. destruct Hk as [H|[H|[H|[H|[]]]]]; discriminate.
Qed.

(** The loops test membership and store values, and never look at a value:
    records that agree outside some keys still do after the loops. *)
Lemma copy_start_agree D start_event : forall d1 d2,
  agree_outside D d1 d2 ->
  agree_outside D (copy_start d1 start_event) (copy_start d2 start_event).
Proof.
  unfold copy_start.
  induction start_event as [|[k0 v0] rest IH]; intros d1 d2 H; simpl; auto.
  apply IH. destruct (in_list k0 skipped_keys); auto.
  now apply agree_outside_set.
Qed.

Lemma copy_end_agree D end_event : forall d1 d2,
  agree_outside D d1 d2 ->
  agree_outside D (copy_end d1 end_event) (copy_end d2 end_event).
Proof.
  unfold copy_end.
  induction end_event as [|[k0 v0] rest IH]; intros d1 d2 H; simpl; auto.
  apply IH. destruct (in_list k0 skipped_keys); auto.
  rewrite (agree_outside_mem D d1 d2 k0 H).
  destruct (dict_mem d2 k0 && negb (in_list k0 overwritten_keys));
    now apply agree_outside_set.
Qed.

(** The fields in which two runs on the same events can differ. *)
Definition ambient_keys : list string :=
  ["SK"; "processing_timestamp_lambda2"; "correlation_id"].

Lemma create_completed_trip_agree amb1 amb2 start_event end_event :
  agree_outside ambient_keys
    (create_completed_trip amb1 start_event end_event)
    (create_completed_trip amb2 start_event end_event).
Proof.
  unfold create_completed_trip.
  apply agree_outside_set, copy_end_agree, copy_start_agree.
  unfold basic_record. repeat constructor; simpl; auto; discriminate.
Qed.

Lemma sequence_key amb start_event end_event :
  dict_get (create_completed_trip amb start_event end_event) "SK" =
  Some (VStr ("COMPLETED#" ++
              format (dict_get_default end_event "dropoff_datetime"
                        (VStr (utcnow_dropoff amb))))%string).
Proof. now rewrite skipped_key_generated. Qed.

(** *** Fields the merge never reads *)





(** *** The merge: what the design document states *)


(** C2: when the end event carries [dropoff_datetime], the sequence key of
    the merged record is [COMPLETED#] followed by that value, whatever the
    clock and the uuid generator give and whatever the start event holds; so
    two merges of the same pair have the same sequence key. *)
Theorem C2_sequence_key_from_dropoff amb1 amb2 start_event end_event ts :
  dict_get end_event "dropoff_datetime" = Some ts ->
  dict_get (create_completed_trip amb1 start_event end_event) "SK" =
    Some (VStr ("COMPLETED#" ++ format ts)%string) /\
  dict_get (create_completed_trip amb2 start_event end_event) "SK" =
    dict_get (create_completed_trip amb1 start_event end_event) "SK".
Proof.
  intros Hts. rewrite !sequence_key. unfold dict_get_default.
  rewrite Hts. auto.
Qed.

(** C4, as the code has it. Both loops skip [status]: the merged record's
    [status] is ["completed"] whatever the two events carry, and no
    [end_status] field is made from the end event's [status] (the record has
    an [end_status] only when one of the events has a field of that name). *)
Theorem C4_status_is_completed amb start_event end_event :
  dict_get start_event "end_status" = None ->
  dict_get end_event "end_status" = None ->
  dict_get (create_completed_trip amb start_event end_event) "status" =
    Some (VStr "completed") /\
  dict_get (create_completed_trip amb start_event end_event) "end_status" = None.
Proof.
  intros Hs He. split.
  - now rewrite skipped_key_generated.
  - rewrite create_completed_trip_get by discriminate.
    rewrite copy_end_untouched.
    + rewrite copy_start_untouched; [reflexivity|].
      intros k' Hin _ <-. now apply dict_get_none_not_key in Hs.
    + intros k' Hin Hsk. split.
      * intros <-. now apply dict_get_none_not_key in He.
      * intros Heq. apply end_prefix_inj in Heq. subst k'. discriminate.
Qed.

(** C10: the renaming guards the generated fields against end fields only.
    A [correlation_id] or a [processing_timestamp_lambda2] field of the
    start event replaces the generated value in the merged record; the same
    field on the end event alone leaves the generated value in place and is
    stored with the prefix [end_]. *)
Theorem C10_start_field_overwrites_generated amb start_event end_event k :
  dict_wf start_event -> dict_wf end_event ->
  k = "correlation_id" \/ k = "processing_timestamp_lambda2" ->
  let completed_trip := create_completed_trip amb start_event end_event in
  let generated := basic_record amb start_event end_event in
  (forall v, dict_get start_event k = Some v ->
             dict_get completed_trip k = Some v) /\
  (forall v, dict_get start_event k = None ->
             dict_get end_event k = Some v ->
             dict_get completed_trip k = dict_get generated k /\
             dict_get completed_trip ("end_" ++ k)%string = Some v).
Proof.
  intros Hwf Hwfe Hk completed_trip generated. subst completed_trip generated.
  assert (in_list k skipped_keys = false /\ in_list k overwritten_keys = false
          /\ k <> "data_type" /\ not_renamed_onto end_event k
          /\ dict_mem (basic_record amb start_event end_event) k = true)
    as (Hs & Ho & Hd & Hc & Hg).
  { destruct Hk as [-> | ->]; repeat split; try discriminate;
      intros k' _; discriminate. }
  split.
  - intros v Hget.
    rewrite (create_completed_trip_get _ _ _ _ Hd).
    assert (dict_get (copy_start (basic_record amb start_event end_event)
                        start_event) k = Some v) as Hstart
      by now apply copy_start_stores.
    rewrite copy_end_keeps; auto.
    unfold dict_mem. now rewrite Hstart.
  - intros v Hnone Hget.
    assert (dict_get (copy_start (basic_record amb start_event end_event)
                        start_event) k =
            dict_get (basic_record amb start_event end_event) k) as Hstart.
    { apply copy_start_untouched. intros k' Hin _ <-.
      now apply dict_get_none_not_key in Hnone. }
    assert (dict_mem (copy_start (basic_record amb start_event end_event)
                        start_event) k = true) as Hmem.
    { unfold dict_mem in *. now rewrite Hstart. }
    split.
    + rewrite (create_completed_trip_get _ _ _ _ Hd).
      rewrite copy_end_keeps; auto.
    + rewrite create_completed_trip_get by (simpl; discriminate).
      now apply copy_end_renames.
Qed.

(** *** Facts about the calls to the table *)

Lemma table_put_item_returned it w u w' :
  table_put_item it w = (Returned u, w') ->
  calls w' = calls w ++ [PutItem it true] /\
  exists k, item_key it = Some k /\ table w' = table_upsert k it (table w).
Proof.
  unfold table_put_item, next_reply.
  destruct (replies w) as [|r rest]; [|destruct r];
    destruct (item_key it) as [k|]; simpl; intros H; inversion H; subst;
    simpl; eauto.
Qed.

Lemma table_put_item_raised it w e w' :
  table_put_item it w = (Raised e, w') ->
  calls w' = calls w ++ [PutItem it false] /\ table w' = table w.
Proof.
  unfold table_put_item, next_reply.
  destruct (replies w) as [|r rest]; [|destruct r];
    destruct (item_key it) as [k|]; simpl; intros H; inversion H; subst;
    simpl; eauto.
Qed.

(** The loop of [put_item_with_retry] with the fuel it is given: every
    round but the last is a failed write, and the loop ends with a write
    that succeeded, or after as many failed writes as rounds were left, or
    at once when no round was left. *)
Lemma put_item_loop_spec it max_retries : forall fuel retry_count w,
  fuel = Z.to_nat (max_retries - retry_count) ->
  let res := put_item_loop fuel it max_retries retry_count w in
  exists n,
    (fst res = Some (Returned (Some true)) /\ n < fuel /\
     calls (snd res) =
       calls w ++ repeat (PutItem it false) n ++ [PutItem it true] /\
     exists k, item_key it = Some k /\
               table (snd res) = table_upsert k it (table w)) \/
    (fst res = Some (Returned (Some false)) /\ n = fuel /\ 0 < fuel /\
     calls (snd res) = calls w ++ repeat (PutItem it false) n /\
     table (snd res) = table w) \/
    (fst res = Some (Returned None) /\ n = 0 /\ fuel = 0 /\ snd res = w).
Proof.
  induction fuel as [|fuel IH]; intros rc w Hf; simpl.
  - destruct (rc <? max_retries)%Z eqn:E.
    + apply Z.ltb_lt in E. lia.
    + exists 0. right. right. simpl. auto.
  - assert ((rc <? max_retries)%Z = true) as -> by (apply Z.ltb_lt; lia).
    destruct (table_put_item it w) as [[u|e] w'] eqn:Hput.
    + apply table_put_item_returned in Hput as [Hc Ht].
      exists 0. left. simpl. repeat split; auto. lia.
    + apply table_put_item_raised in Hput as [Hc Ht].
      destruct (rc + 1 >=? max_retries)%Z eqn:E.
      * apply Z.geb_le in E. assert (fuel = 0) as -> by lia.
        exists 1. right. left. simpl. repeat split; auto.
      * rewrite Z.geb_leb in E. apply Z.leb_gt in E.
        destruct (IH (rc + 1)%Z w') as [n Hn]; [lia|].
        destruct Hn as [(Hr & Hlt & Hcalls & k & Hk & Htab)
                       |[(Hr & Hlt & Hpos & Hcalls & Htab)
                        |(Hr & _ & Hz & _)]].
        -- exists (S n). left. repeat split; auto; try lia.
           ++ rewrite Hcalls, Hc, <- app_assoc. reflexivity.
           ++ exists k. split; auto. now rewrite Htab, Ht.
        -- exists (S n). right. left. repeat split; auto; try lia.
           ++ rewrite Hcalls, Hc, <- app_assoc. reflexivity.
           ++ now rewrite Htab.
        -- lia.
Qed.

(** The loop never runs out of the fuel [put_item_with_retry] gives it. *)
Lemma put_item_with_retry_total it max_retries w :
  fst (put_item_loop (Z.to_nat max_retries) it max_retries 0 w) <> None.
Proof.
  destruct (put_item_loop_spec it max_retries (Z.to_nat max_retries) 0 w)
    as [n [(H & _)|[(H & _)|(H & _)]]];
    try (f_equal; lia); rewrite H; discriminate.
Qed.

Lemma put_item_with_retry_spec it max_retries w :
  let res := put_item_with_retry it max_retries w in
  exists n,
    (fst res = Returned (Some true) /\ n < Z.to_nat max_retries /\
     calls (snd res) =
       calls w ++ repeat (PutItem it false) n ++ [PutItem it true] /\
     exists k, item_key it = Some k /\
               table (snd res) = table_upsert k it (table w)) \/
    (fst res = Returned (Some false) /\ n = Z.to_nat max_retries /\
     (0 < max_retries)%Z /\
     calls (snd res) = calls w ++ repeat (PutItem it false) n /\
     table (snd res) = table w) \/
    (fst res = Returned None /\ n = 0 /\ (max_retries <= 0)%Z /\ snd res = w).
Proof.
  unfold put_item_with_retry.
  destruct (put_item_loop_spec it max_retries (Z.to_nat max_retries) 0 w)
    as [n H]; [f_equal; lia|].
  destruct (put_item_loop (Z.to_nat max_retries) it max_retries 0 w)
    as [[r|] w'] eqn:E; simpl in *.
  - exists n.
    destruct H as [(Hr & Hlt & Hc & Hk)|[(Hr & Hn & Hpos & Hc & Ht)
                                        |(Hr & Hn & Hz & Hw)]];
      injection Hr as ->.
    + left. auto.
    + right. left. repeat split; auto. lia.
    + right. right. repeat split; auto. lia.
  - destruct H as [(Hr & _)|[(Hr & _)|(Hr & _)]]; discriminate.
Qed.

(** *** Keys of raw events and of completed trips *)

Lemma key_eqb_eq k1 k2 : key_eqb k1 k2 = true <-> k1 = k2.
Proof.
  destruct k1 as [p1 s1], k2 as [p2 s2]. unfold key_eqb. simpl.
  rewrite andb_true_iff, !String.eqb_eq. split.
  - intros [-> ->]. reflexivity.
  - intros H. injection H as -> ->. auto.
Qed.

Lemma has_key_item_key k it :
  has_key k it = true <-> item_key it = Some k.
Proof.
  unfold has_key. destruct (item_key it) as [k'|].
  - rewrite key_eqb_eq. split; congruence.
  - split; discriminate.
Qed.

Lemma table_lookup_upsert_same k it t :
  item_key it = Some k -> table_lookup k (table_upsert k it t) = Some it.
Proof.
  intros Hk. apply has_key_item_key in Hk. unfold table_lookup.
  induction t as [|x rest IH]; simpl.
  - now rewrite Hk.
  - destruct (has_key k x) eqn:E; simpl.
    + now rewrite Hk.
    + destruct (key_after k x); simpl.
      * now rewrite Hk.
      * now rewrite E.
Qed.

Lemma table_lookup_upsert_other k k' it t :
  item_key it = Some k' -> k <> k' ->
  table_lookup k (table_upsert k' it t) = table_lookup k t.
Proof.
  intros Hk Hne. unfold table_lookup.
  assert (has_key k it = false) as Hit.
  { destruct (has_key k it) eqn:E; auto.
    apply has_key_item_key in E. congruence. }
  induction t as [|x rest IH]; simpl.
  - now rewrite Hit.
  - destruct (has_key k' x) eqn:E; simpl.
    + rewrite Hit. apply has_key_item_key in E.
      destruct (has_key k x) eqn:E'; auto.
      apply has_key_item_key in E'. congruence.
    + destruct (key_after k' x); simpl.
      * now rewrite Hit.
      * now rewrite IH.
Qed.

Lemma prefix_raw x s :
  String.prefix ("RAW#" ++ x)%string s = true -> String.prefix "RAW#" s = true.
Proof.
  destruct s as [|a1 [|a2 [|a3 [|a4 s]]]]; cbn -[ascii_dec];
    try discriminate;
    repeat (match goal with
            | |- context [ascii_dec ?a ?b] => destruct (ascii_dec a b)
            end; try discriminate);
    intros _; destruct s; reflexivity.
Qed.

Lemma raw_not_completed s x :
  String.prefix "RAW#" s = true -> s <> ("COMPLETED#" ++ x)%string.
Proof.
  intros H ->. simpl in H. discriminate.
Qed.

(** The key of a merged record is not the key of a raw event. *)
Lemma completed_key_not_raw amb start_event end_event it k :
  raw_key it ->
  item_key (create_completed_trip amb start_event end_event) = Some k ->
  item_key it <> Some k.
Proof.
  intros Hraw Hk Hit. destruct k as [p sk].
  apply Hraw in Hit. unfold item_key in Hk. rewrite sequence_key in Hk.
  destruct (dict_get _ "PK") as [[]|]; unfold key_of in Hk; try discriminate.
  injection Hk as _ <-. now apply raw_not_completed with (x := format
    (dict_get_default end_event "dropoff_datetime" (VStr (utcnow_dropoff amb))))
    in Hit.
Qed.

(** *** Facts about the helpers of the handler *)

Lemma decode_image_untouched ddb_item : forall acc event_item k,
  decode_image ddb_item acc = Returned event_item ->
  ~ In k (dict_keys ddb_item) ->
  dict_get event_item k = dict_get acc k.
Proof.
  induction ddb_item as [|[k0 a0] rest IH]; intros acc ev k Hd Hk; simpl in *.
  - now injection Hd as ->.
  - destruct (decode_field acc (k0, a0)) as [acc'|] eqn:E; [|discriminate].
    rewrite (IH acc' ev k Hd) by tauto.
    assert (k0 <> k) as Hne by tauto.
    unfold decode_field in E.
    destruct a0; try destruct (Decimal n); inversion E; subst; auto;
      now apply dict_get_set_other.
Qed.

Lemma decode_image_string ddb_item : forall acc event_item k s,
  decode_image ddb_item acc = Returned event_item ->
  dict_wf ddb_item ->
  dict_get ddb_item k = Some (AttrS s) ->
  dict_get event_item k = Some (VStr s).
Proof.
  induction ddb_item as [|[k0 a0] rest IH]; intros acc ev k s Hd Hwf Hget;
    simpl in *; [discriminate|].
  inversion Hwf as [|? ? Hnotin Hwf']; subst.
  destruct (decode_field acc (k0, a0)) as [acc'|] eqn:E; [|discriminate].
  destruct (String.eqb k0 k) eqn:Ek.
  - apply String.eqb_eq in Ek. subst k0. injection Hget as ->.
    unfold decode_field in E. injection E as <-.
    rewrite (decode_image_untouched rest _ ev k Hd Hnotin).
    apply dict_get_set_same.
  - now apply (IH acc' ev k s).
Qed.

Lemma find_counterpart_event_spec trip_id data_type w :
  let res := find_counterpart_event trip_id data_type w in
  exists sk_prefix found,
    fst res = Returned found /\
    calls (snd res) = calls w ++ [Query trip_id sk_prefix] /\
    table (snd res) = table w /\
    (forall counterpart_item, found = Some counterpart_item ->
                              raw_key counterpart_item).
Proof.
  unfold find_counterpart_event, try_except, bind, table_query, next_reply.
  eexists.
  destruct (replies w) as [|r rest]; [|destruct r]; destruct trip_id as [p|];
    simpl;
    try (exists None; repeat split; auto; discriminate).
  - match goal with |- context [filter ?f ?t] =>
      destruct (filter f t) as [|first others] eqn:E end; simpl.
    + exists None. repeat split; auto. discriminate.
    + exists (Some first). repeat split; auto.
      intros cp Hcp. injection Hcp as <-.
      assert (In first (first :: others)) as Hin by now left.
      rewrite <- E in Hin. apply filter_In in Hin as [_ Hf].
      intros p' s' Hk. rewrite Hk in Hf.
      apply andb_true_iff in Hf as [_ Hf]. now apply prefix_raw in Hf.
  - match goal with |- context [filter ?f ?t] =>
      destruct (filter f t) as [|first others] eqn:E end; simpl.
    + exists None. repeat split; auto. discriminate.
    + exists (Some first). repeat split; auto.
      intros cp Hcp. injection Hcp as <-.
      assert (In first (first :: others)) as Hin by now left.
      rewrite <- E in Hin. apply filter_In in Hin as [_ Hf].
      intros p' s' Hk. rewrite Hk in Hf.
      apply andb_true_iff in Hf as [_ Hf]. now apply prefix_raw in Hf.
Qed.

Lemma item_key_status_update (old : item) new_status processed_at :
  item_key
    (dict_set (dict_set old "status" (VStr new_status))
       "processed_at" (VStr processed_at)) = item_key old.
Proof.
  unfold item_key. now rewrite !dict_get_set_other by discriminate.
Qed.

(** Marking an event makes at most one call, an [UpdateItem], and leaves
    every item under another key as it was. *)
Lemma update_event_status_spec it new_status w :
  let res := update_event_status it new_status w in
  exists marks,
    calls (snd res) = calls w ++ marks /\
    (marks = [] \/
     exists pk sk ok, marks = [UpdateItem pk sk new_status ok]) /\
    (forall k, item_key it <> Some k ->
               table_lookup k (table (snd res)) = table_lookup k (table w)).
Proof.
  unfold update_event_status, try_except, bind, index, item_key.
  destruct (dict_get it "PK") as [pk|]; simpl.
  2:{ exists []. rewrite app_nil_r. auto. }
  destruct (dict_get it "SK") as [sk|]; simpl.
  2:{ exists []. rewrite app_nil_r. auto. }
  unfold table_update_item, next_reply. simpl.
  destruct (replies w) as [|r rest]; [|destruct r];
    destruct (key_of (Some pk) (Some sk)) as [k'|] eqn:Ek; simpl;
    eexists; (split; [reflexivity|]); (split; [right; eauto|]);
    intros k Hne; auto;
    (apply table_lookup_upsert_other; [|congruence]);
    rewrite item_key_status_update;
    (destruct (table_lookup k' (table w)) as [old|] eqn:El;
     [ apply find_some in El as [_ El]; now apply has_key_item_key in El
     | exact Ek ]).
Qed.

Lemma marks_only_after_write_failed it n written trace :
  marks_only_after_write written (repeat (PutItem it false) n ++ trace) =
  marks_only_after_write written trace.
Proof.
  induction n as [|n IH]; simpl; auto. now rewrite orb_false_r.
Qed.

Lemma in_failed_writes it n c :
  ~ In (PutItem c true) (repeat (PutItem it false) n).
Proof. intros H. apply repeat_spec in H. discriminate. Qed.

Lemma create_completed_trip_now_spec start_event end_event w :
  exists amb w',
    create_completed_trip_now start_event end_event w =
      (Returned (create_completed_trip amb start_event end_event), w') /\
    calls w' = calls w /\ table w' = table w.
Proof. do 2 eexists. split; [reflexivity|]. simpl. auto. Qed.

(** Lines 250-251: the two markings make at most two calls, both
    [UpdateItem], and leave the items under other keys as they were. *)
Lemma mark_both_spec event_item counterpart_item w :
  let res :=
    (_ <- update_event_status event_item "processed_by_matcher" ;;
     _ <- update_event_status counterpart_item "processed_by_matcher" ;;
     ret tt) w in
  exists marks,
    calls (snd res) = calls w ++ marks /\
    marks_only_after_write true marks = true /\
    (forall c, ~ In (PutItem c true) marks) /\
    (forall k, item_key event_item <> Some k ->
               item_key counterpart_item <> Some k ->
               table_lookup k (table (snd res)) = table_lookup k (table w)).
Proof.
  unfold bind.
  destruct (update_event_status_spec event_item "processed_by_matcher" w)
    as (m1 & Hc1 & Hs1 & Hk1).
  destruct (update_event_status event_item "processed_by_matcher" w)
    as [r1 w1]; simpl in *.
  destruct r1 as [b1|e1]; simpl.
  - destruct (update_event_status_spec counterpart_item "processed_by_matcher" w1)
      as (m2 & Hc2 & Hs2 & Hk2).
    destruct (update_event_status counterpart_item "processed_by_matcher" w1)
      as [r2 w2]; simpl in *.
    exists (m1 ++ m2).
    assert (calls w2 = calls w ++ m1 ++ m2) as Hcalls
      by (rewrite Hc2, Hc1, <- app_assoc; reflexivity).
    assert (forall k, item_key event_item <> Some k ->
                      item_key counterpart_item <> Some k ->
                      table_lookup k (table w2) = table_lookup k (table w))
      as Hkeep by (intros k H1 H2; rewrite Hk2, Hk1; auto).
    destruct Hs1 as [-> | (pk1 & sk1 & ok1 & ->)];
      destruct Hs2 as [-> | (pk2 & sk2 & ok2 & ->)];
      destruct r2; simpl; repeat split; auto;
      intros c Hin; simpl in Hin; intuition discriminate.
  - exists m1.
    destruct Hs1 as [-> | (pk1 & sk1 & ok1 & ->)]; simpl; repeat split; auto;
      intros c Hin; simpl in Hin; intuition discriminate.
Qed.

Lemma complete_pair_spec data_type event_item counterpart_item w r w' :
  raw_key event_item -> raw_key counterpart_item ->
  complete_pair data_type event_item counterpart_item w = (r, w') ->
  exists trace,
    calls w' = calls w ++ trace /\
    marks_only_after_write false trace = true /\
    (forall c k, In (PutItem c true) trace -> item_key c = Some k ->
                 table_lookup k (table w') = Some c).
Proof.
  intros Hev Hcp Hrun. unfold complete_pair in Hrun.
  destruct (assign_roles data_type event_item counterpart_item)
    as [start_event end_event].
  unfold bind at 1 in Hrun.
  destruct (create_completed_trip_now_spec start_event end_event w)
    as (amb & w1 & Hmerge & Hcalls1 & Htable1).
  rewrite Hmerge in Hrun.
  set (completed_trip := create_completed_trip amb start_event end_event) in *.
  unfold bind at 1 in Hrun.
  destruct (put_item_with_retry_spec completed_trip 3 w1) as [n Hput].
  destruct (put_item_with_retry completed_trip 3 w1) as [r2 w2]; simpl in Hput.
  destruct Hput as [(-> & Hlt & Hcalls2 & k & Hk & Htable2)
                   |[(-> & Hn & _ & Hcalls2 & Htable2)
                    |(-> & Hn & Hz & ->)]].
  - destruct (mark_both_spec event_item counterpart_item w2)
      as (marks & Hcalls3 & Hmarks & Hnoput & Hkeep).
    rewrite Hrun in Hcalls3, Hkeep. simpl in Hcalls3, Hkeep.
    exists (repeat (PutItem completed_trip false) n
            ++ [PutItem completed_trip true] ++ marks).
    split; [|split].
    + rewrite Hcalls3, Hcalls2, Hcalls1, <- !app_assoc. reflexivity.
    + rewrite marks_only_after_write_failed. simpl. exact Hmarks.
    + intros c k' Hin Hk'.
      apply in_app_or in Hin as [Hin|Hin];
        [now apply in_failed_writes in Hin|].
      destruct Hin as [Hin|Hin]; [|now apply Hnoput in Hin].
      injection Hin as <-.
      assert (k' = k) as -> by congruence.
      rewrite Hkeep.
      * rewrite Htable2. now apply table_lookup_upsert_same.
      * now apply (completed_key_not_raw amb start_event end_event).
      * now apply (completed_key_not_raw amb start_event end_event).
  - injection Hrun as _ <-.
    exists (repeat (PutItem completed_trip false) n).
    split; [|split].
    + now rewrite Hcalls2, Hcalls1.
    + rewrite <- (app_nil_r (repeat _ n)).
      now rewrite marks_only_after_write_failed.
    + intros c k' Hin. now apply in_failed_writes in Hin.
  - lia.
Qed.

(** The handler decodes a raw event: the item it builds from a record that
    passed the [RAW#] filter has a sort key with that prefix. *)
Lemma decoded_event_raw_key ddb_item event_item sk :
  dict_wf ddb_item ->
  decode_image ddb_item [] = Returned event_item ->
  attr_S_of ddb_item "SK" = Some sk ->
  String.prefix "RAW#" sk = true ->
  raw_key event_item.
Proof.
  intros Hwf Hd Hsk Hraw p s Hk. unfold attr_S_of in Hsk.
  destruct (dict_get ddb_item "SK") as [[]|] eqn:E; try discriminate.
  injection Hsk as ->.
  unfold item_key in Hk.
  rewrite (decode_image_string ddb_item [] event_item "SK" sk Hd Hwf E) in Hk.
  unfold key_of in Hk.
  destruct (dict_get event_item "PK") as [[]|]; try discriminate.
  now injection Hk as _ <-.
Qed.

Lemma process_record_spec record w w' :
  (forall ddb_item, NewImage record = Some ddb_item -> dict_wf ddb_item) ->
  process_record record w = w' ->
  exists trace,
    calls w' = calls w ++ trace /\
    marks_only_after_write false trace = true /\
    (forall c k, In (PutItem c true) trace -> item_key c = Some k ->
                 table_lookup k (table w') = Some c).
Proof.
  intros Hwf Hrun.
  assert (forall u : world, u = w' -> u = w ->
            exists trace,
              calls w' = calls w ++ trace /\
              marks_only_after_write false trace = true /\
              (forall c k, In (PutItem c true) trace -> item_key c = Some k ->
                           table_lookup k (table w') = Some c)) as Hsame.
  { intros u <- ->. exists []. rewrite app_nil_r. repeat split; auto.
    intros c k []. }
  unfold process_record, record_body in Hrun.
  destruct (negb (eventName record =? "INSERT")); [now apply (Hsame w)|].
  destruct (NewImage record) as [ddb_item|]; [|now apply (Hsame w)].
  specialize (Hwf ddb_item eq_refl).
  destruct (attr_S_of ddb_item "SK") as [sk|] eqn:Esk;
    [|now apply (Hsame w)].
  destruct (String.prefix "RAW#" sk) eqn:Eraw; [|now apply (Hsame w)].
  simpl in Hrun.
  destruct (attr_S_of ddb_item "data_type") as [data_type|];
    [|now apply (Hsame w)].
  destruct ((data_type =? "")
            || negb (in_list data_type ["trip_start"; "trip_end"]));
    [now apply (Hsame w)|].
  destruct (decode_image ddb_item []) as [event_item|e] eqn:Edec;
    [|now apply (Hsame w)].
  unfold bind in Hrun.
  destruct (find_counterpart_event_spec
              (attr_S_of ddb_item "PK") data_type w)
    as (sk_prefix & found & Hfound & Hcalls & _ & Hraw).
  destruct (find_counterpart_event (attr_S_of ddb_item "PK") data_type w)
    as [r1 w1]; simpl in Hfound, Hcalls.
  subst r1.
  assert (w1 = w' ->
          exists trace,
            calls w' = calls w ++ trace /\
            marks_only_after_write false trace = true /\
            (forall c k, In (PutItem c true) trace -> item_key c = Some k ->
                         table_lookup k (table w') = Some c)) as Hlooked.
  { intros <-. exists [Query (attr_S_of ddb_item "PK") sk_prefix].
    repeat split; auto. intros c k [H|[]]. discriminate. }
  destruct found as [[|field fields]|]; try (now apply Hlooked).
  destruct (complete_pair data_type event_item (field :: fields) w1)
    as [r2 w2] eqn:Epair.
  simpl in Hrun. subst w2.
  destruct (complete_pair_spec _ _ _ _ _ _
              (decoded_event_raw_key _ _ _ Hwf Edec Esk Eraw)
              (Hraw _ eq_refl) Epair)
    as (trace & Hc & Hm & Hstored).
  exists (Query (attr_S_of ddb_item "PK") sk_prefix :: trace).
  split; [|split].
  - rewrite Hc, Hcalls, <- app_assoc. reflexivity.
  - exact Hm.
  - intros c k [H|H]; [discriminate|]. now apply Hstored.
Qed.

(** *** The handler: what the design document states *)

(** C5, as the code has it. When the query raises or its response has no
    [Items], [find_counterpart_event] returns [None], the value it returns
    when the table holds no counterpart: the failure is not told apart from
    "not found". *)
Theorem C5_failed_query_reads_as_not_found trip_id data_type w :
  hd Answers (replies w) = Fails \/ hd Answers (replies w) = Garbled ->
  fst (find_counterpart_event trip_id data_type w) = Returned None.
Proof.
  unfold find_counterpart_event, try_except, bind, table_query, next_reply.
  destruct (replies w) as [|r rest]; simpl; intros [H|H]; try discriminate;
    subst r; destruct trip_id; reflexivity.
Qed.




(** C7, as the code has it. [put_item_with_retry] makes at most
    [max_retries] writes (3 as the handler calls it). Every write that
    raises, whatever the exception, is followed by another write until
    [max_retries] writes have failed, and then the result is [False]; the
    result is [True] at the first write that succeeds, and [None] with no
    write at all when [max_retries] is not positive. *)
Theorem C7_bounded_retry it max_retries w :
  let res := put_item_with_retry it max_retries w in
  exists failed,
    failed <= Z.to_nat max_retries /\
    ((fst res = Returned (Some true) /\ failed < Z.to_nat max_retries /\
      calls (snd res) =
        calls w ++ repeat (PutItem it false) failed ++ [PutItem it true]) \/
     (fst res = Returned (Some false) /\ failed = Z.to_nat max_retries /\
      (0 < max_retries)%Z /\
      calls (snd res) = calls w ++ repeat (PutItem it false) failed) \/
     (fst res = Returned None /\ (max_retries <= 0)%Z /\ snd res = w)).
Proof.
  intros res. subst res.
  destruct (put_item_with_retry_spec it max_retries w) as [n H].
  exists n.
  destruct H as [(Hr & Hlt & Hc & _)|[(Hr & Hn & Hpos & Hc & _)
                                     |(Hr & Hn & Hz & Hw)]].
  - split; [lia|]. left. auto.
  - split; [lia|]. right. left. auto.
  - split; [lia|]. right. right. auto.
Qed.

(** C8: in the processing of one record, every marking call comes after
    a write of the completed trip that succeeded, and a completed trip that
    was written is in the table, under its key, when the processing of the
    record ends, whatever the markings did. *)
Theorem C8_marking_follows_write record w :
  (forall ddb_item, NewImage record = Some ddb_item -> dict_wf ddb_item) ->
  exists trace,
    calls (process_record record w) = calls w ++ trace /\
    marks_only_after_write false trace = true /\
    (forall completed_trip k,
       In (PutItem completed_trip true) trace ->
       item_key completed_trip = Some k ->
       table_lookup k (table (process_record record w)) = Some completed_trip).
Proof.
  intros Hwf. exact (process_record_spec record w _ Hwf eq_refl).
Qed.

(** *** More about the merge *)

Lemma dict_mem_set_inv (d : item) k k' v :
  dict_mem (dict_set d k v) k' = true -> k' = k \/ dict_mem d k' = true.
Proof.
  intros H. destruct (String.eqb k k') eqn:E.
  - apply String.eqb_eq in E. now left.
  - apply String.eqb_neq in E. rewrite dict_mem_set_other in H; auto.
Qed.

Lemma copy_start_mem_mono start_event : forall completed_trip k,
  dict_mem completed_trip k = true ->
  dict_mem (copy_start completed_trip start_event) k = true.
Proof.
  unfold copy_start.
  induction start_event as [|[k0 v0] rest IH]; intros acc k H; simpl; auto.
  apply IH. destruct (in_list k0 skipped_keys); auto.
  now apply dict_mem_set_mono.
Qed.

Lemma copy_end_mem_mono end_event : forall completed_trip k,
  dict_mem completed_trip k = true ->
  dict_mem (copy_end completed_trip end_event) k = true.
Proof.
  unfold copy_end.
  induction end_event as [|[k0 v0] rest IH]; intros acc k H; simpl; auto.
  apply IH. destruct (in_list k0 skipped_keys); auto.
  destruct (dict_mem acc k0 && negb (in_list k0 overwritten_keys));
    now apply dict_mem_set_mono.
Qed.

Lemma copy_start_mem_key start_event : forall completed_trip k,
  In k (dict_keys start_event) -> in_list k skipped_keys = false ->
  dict_mem (copy_start completed_trip start_event) k = true.
Proof.
  induction start_event as [|[k0 v0] rest IH]; intros acc k Hin Hs;
    simpl in Hin; [contradiction|].
  change (dict_mem (copy_start (copy_start_field acc (k0, v0)) rest) k = true).
  destruct Hin as [->|Hin]; [|now apply IH].
  apply copy_start_mem_mono. simpl. rewrite Hs. apply dict_mem_set_same.
Qed.

Lemma copy_end_mem_key end_event : forall completed_trip k,
  In k (dict_keys end_event) -> in_list k skipped_keys = false ->
  dict_mem (copy_end completed_trip end_event) k = true.
Proof.
  induction end_event as [|[k0 v0] rest IH]; intros acc k Hin Hs;
    simpl in Hin; [contradiction|].
  change (dict_mem (copy_end (copy_end_field acc (k0, v0)) rest) k = true).
  destruct Hin as [->|Hin]; [|now apply IH].
  apply copy_end_mem_mono. simpl. rewrite Hs.
  destruct (dict_mem acc k) eqn:Hmem; simpl.
  - destruct (negb (in_list k overwritten_keys));
      now apply dict_mem_set_mono.
  - apply dict_mem_set_same.
Qed.

Lemma copy_start_mem_inv start_event : forall completed_trip k,
  dict_mem (copy_start completed_trip start_event) k = true ->
  dict_mem completed_trip k = true \/
  (In k (dict_keys start_event) /\ in_list k skipped_keys = false).
Proof.
  induction start_event as [|[k0 v0] rest IH]; intros acc k H; [now left|].
  change (dict_mem (copy_start (copy_start_field acc (k0, v0)) rest) k = true)
    in H.
  apply IH in H as [H|[H Hs]]; [|right; simpl; auto].
  simpl in H. destruct (in_list k0 skipped_keys) eqn:Es; [now left|].
  apply dict_mem_set_inv in H as [->|H]; [|now left].
  right. simpl. auto.
Qed.

Lemma copy_end_mem_inv end_event : forall completed_trip k,
  dict_mem (copy_end completed_trip end_event) k = true ->
  dict_mem completed_trip k = true \/
  (In k (dict_keys end_event) /\ in_list k skipped_keys = false) \/
  (exists k', In k' (dict_keys end_event) /\ k = ("end_" ++ k')%string).
Proof.
  induction end_event as [|[k0 v0] rest IH]; intros acc k H; [now left|].
  change (dict_mem (copy_end (copy_end_field acc (k0, v0)) rest) k = true) in H.
  apply IH in H as [H|[[H Hs]|(k' & H & Hk)]].
  - simpl in H. destruct (in_list k0 skipped_keys) eqn:Es; [now left|].
    destruct (dict_mem acc k0 && negb (in_list k0 overwritten_keys));
      apply dict_mem_set_inv in H as [->|H]; auto.
    + right. right. exists k0. simpl. auto.
    + right. left. simpl. auto.
  - right. left. simpl. auto.
  - right. right. exists k'. simpl. auto.
Qed.

Lemma dict_mem_in_keys (d : item) k :
  dict_mem d k = true -> In k (dict_keys d).
Proof.
  unfold dict_mem. induction d as [|[k0 v0] d IH]; simpl; [discriminate|].
  destruct (String.eqb k0 k) eqn:E.
  - apply String.eqb_eq in E. auto.
  - auto.
Qed.

(** X1: every field name of either event, the four skipped keys apart, is a
    field name of the merged record: the merge renames end fields, it drops
    no name. *)
Theorem merge_keeps_every_field_name amb start_event end_event k :
  In k (dict_keys start_event) \/ In k (dict_keys end_event) ->
  in_list k skipped_keys = false ->
  dict_mem (create_completed_trip amb start_event end_event) k = true.
Proof.
  intros Hin Hs. unfold create_completed_trip. apply dict_mem_set_mono.
  destruct Hin as [Hin|Hin].
  - now apply copy_end_mem_mono, copy_start_mem_key.
  - now apply copy_end_mem_key.
Qed.

(** X2: every field name of the merged record is one of the six generated
    names, [data_type], a field name of one of the events, or an end field
    name with the prefix [end_]: the merge invents no other name. *)
Theorem merge_field_names_origin amb start_event end_event k :
  dict_mem (create_completed_trip amb start_event end_event) k = true ->
  In k ["PK"; "SK"; "trip_id"; "status"; "processing_timestamp_lambda2";
        "correlation_id"; "data_type"] \/
  In k (dict_keys start_event) \/
  In k (dict_keys end_event) \/
  (exists k', In k' (dict_keys end_event) /\ k = ("end_" ++ k')%string).
Proof.
  unfold create_completed_trip. intros H.
  apply dict_mem_set_inv in H as [->|H]; [left; simpl; tauto|].
  apply copy_end_mem_inv in H as [H|[[H _]|H]]; auto.
  apply copy_start_mem_inv in H as [H|[H _]]; auto.
  apply dict_mem_in_keys in H. left. simpl in *. tauto.
Qed.

(** An end field under [trip_id] or [data_type] is stored under its own
    key, over what the record holds there. *)
Lemma copy_end_overwrites end_event : forall completed_trip k v,
  dict_wf end_event ->
  dict_get end_event k = Some v ->
  in_list k skipped_keys = false ->
  in_list k overwritten_keys = true ->
  dict_get (copy_end completed_trip end_event) k = Some v.
Proof.
  induction end_event as [|[k0 v0] rest IH];
    intros acc k v Hwf Hget Hs Ho; simpl in *; [discriminate|].
  inversion Hwf as [|? ? Hnotin Hwf']; subst.
  destruct (String.eqb k0 k) eqn:E.
  - apply String.eqb_eq in E. subst k0. injection Hget as ->.
    unfold copy_end. simpl. rewrite Hs, Ho, andb_false_r.
    change (dict_get (copy_end (dict_set acc k v) rest) k = Some v).
    rewrite copy_end_untouched; [apply dict_get_set_same|].
    intros k' Hin _. split; [intros ->; contradiction|].
    apply in_list_true in Ho. simpl in Ho.
    destruct Ho as [<-|[<-|[]]]; discriminate.
  - change (dict_get (copy_end (copy_end_field acc (k0, v0)) rest) k = Some v).
    now apply IH.
Qed.

(** X3: the identity of the merged record. [data_type] is [completed_trip] and
    [PK] is the start event's [PK] ([None] when it has none), whatever else
    the events hold; [trip_id] is the end event's [trip_id] when it has
    one, else the start event's, else the start event's [PK]. *)
Theorem merge_identity_fields amb start_event end_event :
  dict_wf start_event -> dict_wf end_event ->
  let completed_trip := create_completed_trip amb start_event end_event in
  dict_get completed_trip "data_type" = Some (VStr "completed_trip") /\
  dict_get completed_trip "PK" = Some (dict_get_default start_event "PK" VNone) /\
  dict_get completed_trip "trip_id" =
    Some (dict_get_default end_event "trip_id"
            (dict_get_default start_event "trip_id"
               (dict_get_default start_event "PK" VNone))).
Proof.
  intros Hs He completed_trip. subst completed_trip. split; [|split].
  - apply dict_get_set_same.
  - now rewrite skipped_key_generated.
  - rewrite create_completed_trip_get by discriminate.
    assert (dict_get (copy_start (basic_record amb start_event end_event)
                        start_event) "trip_id" =
            Some (dict_get_default start_event "trip_id"
                    (dict_get_default start_event "PK" VNone))) as Hstart.
    { unfold dict_get_default at 1.
      destruct (dict_get start_event "trip_id") as [v|] eqn:E.
      - now apply copy_start_stores.
      - rewrite copy_start_untouched; [reflexivity|].
        intros k' Hin _ <-. now apply dict_get_none_not_key in E. }
    unfold dict_get_default at 1.
    destruct (dict_get end_event "trip_id") as [v|] eqn:E.
    + now apply copy_end_overwrites.
    + rewrite copy_end_untouched; [exact Hstart|].
      intros k' Hin _. split; [|discriminate].
      intros <-. now apply dict_get_none_not_key in E.
Qed.

(** *** More about the decoding of a stream image *)

(** What lines 220-227 make of one attribute value: nothing for a tag the
    handler passes over, and nothing for a number [Decimal] rejects. *)
Definition scalar_of_attr (a : attr) : option value :=
  match a with
  | AttrS s => Some (VStr s)
  | AttrN n =>
      match Decimal n with
      | Some d => Some (VNum d)
      | None => None
      end
  | AttrBOOL b => Some (VBool b)
  | AttrNULL => Some VNone
  | AttrOther _ => None
  end.

Lemma decode_field_get acc k0 a0 acc' k :
  decode_field acc (k0, a0) = Returned acc' ->
  dict_get acc' k =
  if String.eqb k0 k
  then match scalar_of_attr a0 with
       | Some v => Some v
       | None => dict_get acc k
       end
  else dict_get acc k.
Proof.
  unfold decode_field, scalar_of_attr. intros H.
  destruct (String.eqb k0 k) eqn:E.
  - apply String.eqb_eq in E. subst k0.
    destruct a0; try destruct (Decimal n); inversion H; subst; auto;
      apply dict_get_set_same.
  - apply String.eqb_neq in E.
    destruct a0; try destruct (Decimal n); inversion H; subst; auto;
      now apply dict_get_set_other.
Qed.

Lemma decode_image_get ddb_item : forall acc event_item k,
  dict_wf ddb_item ->
  decode_image ddb_item acc = Returned event_item ->
  dict_get event_item k =
  match dict_get ddb_item k with
  | Some a =>
      match scalar_of_attr a with
      | Some v => Some v
      | None => dict_get acc k
      end
  | None => dict_get acc k
  end.
Proof.
  induction ddb_item as [|[k0 a0] rest IH]; intros acc ev k Hwf Hd; simpl in *.
  - now injection Hd as ->.
  - inversion Hwf as [|? ? Hnotin Hwf']; subst.
    destruct (decode_field acc (k0, a0)) as [acc'|] eqn:E; [|discriminate].
    pose proof (decode_field_get _ _ _ _ k E) as Hfield.
    destruct (String.eqb k0 k) eqn:Ek.
    + apply String.eqb_eq in Ek. subst k0.
      now rewrite (decode_image_untouched rest acc' ev k Hd Hnotin).
    + rewrite (IH acc' ev k Hwf' Hd), Hfield. reflexivity.
Qed.

(** X4: the decoded event holds, under each key of the image, the scalar of the
    attribute under that key, and no other key: attributes with a tag other
    than [S], [N], [BOOL] and [NULL] are left out. *)
Theorem decode_image_fields ddb_item event_item k :
  dict_wf ddb_item ->
  decode_image ddb_item [] = Returned event_item ->
  dict_get event_item k =
  match dict_get ddb_item k with
  | Some a => scalar_of_attr a
  | None => None
  end.
Proof.
  intros Hwf Hd. rewrite (decode_image_get ddb_item [] event_item k Hwf Hd).
  destruct (dict_get ddb_item k) as [a|]; auto.
  now destruct (scalar_of_attr a).
Qed.

Lemma decode_image_raises_iff ddb_item : forall acc,
  (exists e, decode_image ddb_item acc = Raised e) <->
  (exists k n, In (k, AttrN n) ddb_item /\ Decimal n = None).
Proof.
  induction ddb_item as [|[k0 a0] rest IH]; intros acc; simpl.
  - split; [intros [e H]; discriminate|intros (k & n & [] & _)].
  - destruct (decode_field acc (k0, a0)) as [acc'|e0] eqn:E.
    + rewrite IH. split.
      * intros (k & n & Hin & Hn). exists k, n. auto.
      * intros (k & n & [Hin|Hin] & Hn); [|eauto].
        injection Hin as -> ->. unfold decode_field in E.
        rewrite Hn in E. discriminate.
    + unfold decode_field in E.
      destruct a0; try discriminate.
      destruct (Decimal n) eqn:En; [discriminate|].
      split; [|eauto]. intros _. exists k0, n. auto.
Qed.

Lemma decode_image_exception ddb_item : forall acc e,
  decode_image ddb_item acc = Raised e -> e = InvalidOperation.
Proof.
  induction ddb_item as [|[k0 a0] rest IH]; intros acc e; simpl;
    [discriminate|].
  destruct (decode_field acc (k0, a0)) as [acc'|e0] eqn:E; [apply IH|].
  unfold decode_field in E. destruct a0; try discriminate.
  destruct (Decimal n); [discriminate|]. congruence.
Qed.

(** X5: the decoding raises exactly when the image has a number attribute
    that [Decimal] rejects, and the exception is then [InvalidOperation]. *)
Theorem decode_image_raises ddb_item acc :
  ((exists e, decode_image ddb_item acc = Raised e) <->
   (exists k n, In (k, AttrN n) ddb_item /\ Decimal n = None)) /\
  (forall e, decode_image ddb_item acc = Raised e -> e = InvalidOperation).
Proof.
  split; [apply decode_image_raises_iff|apply decode_image_exception].
Qed.

(** *** More about the handler: which records reach the lookup *)

(** Lines 185-228 for one record: the identifier, the kind and the decoded
    event of a record that passes every filter and decodes, [None] for a
    record the handler passes over. *)
Definition screened (record : stream_record)
  : option (option string * string * item) :=
  if negb (String.eqb (eventName record) "INSERT") then None
  else
    match NewImage record with
    | None => None
    | Some ddb_item =>
        let sk :=
          match attr_S_of ddb_item "SK" with
          | Some s => s
          | None => ""
          end in
        if negb (String.prefix "RAW#" sk) then None
        else
          match attr_S_of ddb_item "data_type" with
          | None => None
          | Some data_type =>
              if String.eqb data_type ""
                 || negb (in_list data_type ["trip_start"; "trip_end"])
              then None
              else
                match decode_image ddb_item [] with
                | Raised _ => None
                | Returned event_item =>
                    Some (attr_S_of ddb_item "PK", data_type, event_item)
                end
          end
    end.

(** Lines 231-255: the lookup, and the completion when it finds an item. *)
Definition correlate
  (pk : option string) (data_type : string) (event_item : item) : M unit :=
  counterpart_item <- find_counterpart_event pk data_type ;;
  match counterpart_item with
  | Some (field :: fields) =>
      complete_pair data_type event_item (field :: fields)
  | _ => ret tt
  end.

Lemma process_record_screened record w :
  process_record record w =
  match screened record with
  | None => w
  | Some (pk, data_type, event_item) =>
      snd (correlate pk data_type event_item w)
  end.
Proof.
  unfold process_record, record_body, screened, correlate.
  destruct (negb (eventName record =? "INSERT")); auto.
  destruct (NewImage record) as [ddb_item|]; auto.
  destruct (negb (String.prefix "RAW#" _)); auto.
  destruct (attr_S_of ddb_item "data_type") as [data_type|]; auto.
  destruct ((data_type =? "")
            || negb (in_list data_type ["trip_start"; "trip_end"])); auto.
  destruct (decode_image ddb_item []); auto.
Qed.

(** X6: a record that is no insert, has no new image, has no string sort key
    with the prefix [RAW#] (so the stream record of a completed trip the
    handler wrote itself), or has a number [Decimal] rejects is passed
    over: no call is made and nothing changes. *)
Theorem record_passed_over record w :
  eventName record <> "INSERT" \/
  NewImage record = None \/
  (exists ddb_item,
     NewImage record = Some ddb_item /\
     (attr_S_of ddb_item "SK" = None \/
      (exists sk, attr_S_of ddb_item "SK" = Some sk /\
                  String.prefix "RAW#" sk = false) \/
      (exists e, decode_image ddb_item [] = Raised e))) ->
  process_record record w = w.
Proof.
  intros H. rewrite process_record_screened. unfold screened.
  destruct (eventName record =? "INSERT") eqn:E; simpl; auto.
  apply String.eqb_eq in E.
  destruct H as [H|[H|(ddb_item & Himg & H)]]; [contradiction|now rewrite H|].
  rewrite Himg.
  destruct H as [H|[(sk & H & Hraw)|(e & H)]].
  - now rewrite H.
  - now rewrite H, Hraw.
  - destruct (negb (String.prefix "RAW#" _)); auto.
    destruct (attr_S_of ddb_item "data_type"); auto.
    destruct (_ || _); auto. now rewrite H.
Qed.

(** X7: when the lookup finds nothing for a record that reached it, the handler
    has made the one query and no write: the event waits in the table for
    its counterpart. *)
Theorem unmatched_event_waits record pk data_type event_item w :
  screened record = Some (pk, data_type, event_item) ->
  fst (find_counterpart_event pk data_type w) = Returned None ->
  exists sk_prefix,
    calls (process_record record w) = calls w ++ [Query pk sk_prefix] /\
    table (process_record record w) = table w.
Proof.
  intros Hs Hnone. rewrite process_record_screened, Hs.
  unfold correlate, bind.
  destruct (find_counterpart_event_spec pk data_type w)
    as (sk_prefix & found & Hfound & Hcalls & Htable & _).
  destruct (find_counterpart_event pk data_type w) as [r w1].
  simpl in *. subst r. exists sk_prefix. simpl. auto.
Qed.

(** *** More about the lookup *)

(** The key condition of the query of lines 46-52: the item is keyed by the
    identifier, and its sort key begins with [RAW#], the other kind and
    [#]. Every [data_type] but [trip_start] looks for a trip start. *)
Definition is_counterpart (trip_id data_type : string) (it : item) : bool :=
  match item_key it with
  | Some (p, s) =>
      String.eqb p trip_id &&
      String.prefix
        ("RAW#" ++ (if String.eqb data_type "trip_start"
                    then "trip_end" else "trip_start") ++ "#")%string s
  | None => false
  end.

Lemma is_counterpart_key trip_id data_type it :
  is_counterpart trip_id data_type it = true ->
  exists s, dict_get it "PK" = Some (VStr trip_id) /\
            dict_get it "SK" = Some (VStr s).
Proof.
  unfold is_counterpart, item_key, key_of.
  destruct (dict_get it "PK") as [[p| | |]|]; try discriminate.
  destruct (dict_get it "SK") as [[s| | |]|]; try discriminate.
  intros H. apply andb_true_iff in H as [H _].
  apply String.eqb_eq in H. subst. eauto.
Qed.

Lemma find_first_filtered {A} (f : A -> bool) (l : list A) :
  match filter f l with
  | [] => None
  | first :: _ => Some first
  end = find f l.
Proof.
  induction l as [|x l IH]; simpl; auto. now destruct (f x).
Qed.


(** *** The order of keys *)



Lemma string_compare_lt_trans a : forall b c,
  String.compare a b = Lt -> String.compare b c = Lt ->
  String.compare a c = Lt.
Proof.
  induction a as [|x a IH]; intros [|y b] [|z c]; simpl; try discriminate;
    auto.
  unfold Ascii.compare.
  destruct (N.compare_spec (N_of_ascii x) (N_of_ascii y)) as [Exy|Lxy|Gxy];
    destruct (N.compare_spec (N_of_ascii y) (N_of_ascii z)) as [Eyz|Lyz|Gyz];
    try discriminate; intros H1 H2.
  - rewrite Exy, Eyz, N.compare_refl. now apply (IH b c).
  - rewrite Exy. now apply N.compare_lt_iff in Lyz as ->.
  - rewrite <- Eyz. now apply N.compare_lt_iff in Lxy as ->.
  - assert (N_of_ascii x < N_of_ascii z)%N as Lxz
      by now apply N.lt_trans with (N_of_ascii y).
    now apply N.compare_lt_iff in Lxz as ->.
Qed.

Lemma string_ltb_lt a b : String.ltb a b = true <-> String.compare a b = Lt.
Proof.
  unfold String.ltb. destruct (String.compare a b); split; congruence.
Qed.


Lemma string_ltb_trans a b c :
  String.ltb a b = true -> String.ltb b c = true -> String.ltb a c = true.
Proof.
  rewrite !string_ltb_lt. apply string_compare_lt_trans.
Qed.

Lemma string_trichotomy a b :
  String.ltb a b = true \/ a = b \/ String.ltb b a = true.
Proof.
  destruct (String.compare a b) eqn:E.
  - right. left. now apply String.compare_eq_iff.
  - left. now apply string_ltb_lt.
  - right. right. apply string_ltb_lt.
    rewrite String.compare_antisym, E. reflexivity.
Qed.


Lemma key_ltb_trans k1 k2 k3 :
  key_ltb k1 k2 = true -> key_ltb k2 k3 = true -> key_ltb k1 k3 = true.
Proof.
  destruct k1 as [p1 s1], k2 as [p2 s2], k3 as [p3 s3]. unfold key_ltb. simpl.
  rewrite !orb_true_iff, !andb_true_iff, !String.eqb_eq.
  intros [H12|[-> H12]] [H23|[-> H23]].
  - left. now apply string_ltb_trans with p2.
  - now left.
  - now left.
  - right. split; auto. now apply string_ltb_trans with s2.
Qed.

Lemma key_trichotomy k1 k2 :
  key_ltb k1 k2 = true \/ k1 = k2 \/ key_ltb k2 k1 = true.
Proof.
  destruct k1 as [p1 s1], k2 as [p2 s2]. unfold key_ltb. simpl.
  rewrite !orb_true_iff, !andb_true_iff, !String.eqb_eq.
  destruct (string_trichotomy p1 p2) as [H|[->|H]]; auto.
  destruct (string_trichotomy s1 s2) as [H|[->|H]]; auto.
Qed.

(** The item [x] stands before the item [y] in the order of keys. *)
Definition item_before (x y : item) : Prop :=
  match item_key x, item_key y with
  | Some kx, Some ky => key_ltb kx ky = true
  | _, _ => False
  end.

(** The table is in key order: every item has a key, and the keys grow
    along the list. *)
Definition table_ordered (t : list item) : Prop :=
  StronglySorted item_before t /\ Forall (fun x => item_key x <> None) t.

Lemma table_upsert_in k it t y :
  In y (table_upsert k it t) -> y = it \/ In y t.
Proof.
  induction t as [|x rest IH]; simpl.
  - intros [<-|[]]. now left.
  - destruct (has_key k x); [|destruct (key_after k x)]; simpl.
    + intros [<-|H]; auto.
    + intros [<-|[<-|H]]; auto.
    + intros [<-|H]; auto. apply IH in H as [->|H]; auto.
Qed.

(** A write keeps the table in key order. *)
Lemma table_upsert_ordered k it t :
  item_key it = Some k -> table_ordered t ->
  table_ordered (table_upsert k it t).
Proof.
  intros Hk [Hs Hkeyed].
  induction t as [|x rest IH]; simpl.
  - split; repeat constructor. congruence.
  - inversion Hs as [|? ? Hrest Hx]; subst.
    inversion Hkeyed as [|? ? Hxk Hrk]; subst.
    destruct (item_key x) as [kx|] eqn:Ex; [|congruence].
    destruct (has_key k x) eqn:Eh.
    + apply has_key_item_key in Eh. assert (kx = k) as -> by congruence.
      split; constructor; auto; [|congruence].
      eapply Forall_impl; [|exact Hx].
      unfold item_before. now rewrite Ex, Hk.
    + unfold key_after. rewrite Ex.
      destruct (key_ltb k kx) eqn:El.
      * split; constructor; auto; [|congruence].
        constructor; [unfold item_before; now rewrite Hk, Ex|].
        eapply Forall_impl; [|exact Hx].
        unfold item_before. rewrite Ex, Hk. intros y.
        destruct (item_key y); auto. now apply key_ltb_trans.
      * destruct (IH Hrest Hrk) as [Hs' Hk'].
        assert (key_ltb kx k = true) as Hlt.
        { destruct (key_trichotomy k kx) as [H|[->|H]]; auto; [congruence|].
          unfold has_key in Eh. rewrite Ex in Eh.
          assert (key_eqb kx kx = true) by now apply key_eqb_eq.
          congruence. }
        split; constructor; auto; [|rewrite Ex; congruence].
        apply Forall_forall. intros y Hy.
        apply table_upsert_in in Hy as [->|Hy].
        -- unfold item_before. now rewrite Ex, Hk.
        -- now apply (proj1 (Forall_forall _ _) Hx).
Qed.



Lemma filter_map_same {A} (g : A -> bool) (f : A -> A) (l : list A) :
  (forall x, g (f x) = g x) -> filter g (map f l) = map f (filter g l).
Proof.
  intros H. induction l as [|x l IH]; simpl; auto.
  rewrite H. destruct (g x); simpl; now rewrite IH.
Qed.

(** X9: the lookup reads keys only: after any change of the stored items that
    keeps their keys (the marking of an event as processed is one), it
    finds the same item, changed. An event marked as processed is matched
    again. *)
Theorem locator_reads_keys_only (f : item -> item) trip_id data_type w :
  (forall it, item_key (f it) = item_key it) ->
  fst (find_counterpart_event trip_id data_type
         (set_table (map f (table w)) w)) =
  match fst (find_counterpart_event trip_id data_type w) with
  | Returned (Some it) => Returned (Some (f it))
  | other => other
  end.
Proof.
  intros Hkey.
  unfold find_counterpart_event, try_except, bind, table_query, next_reply.
  destruct (replies w) as [|r rest] eqn:Er; simpl; rewrite ?Er; simpl;
    [|destruct r]; destruct trip_id as [p|]; simpl; auto;
    (rewrite filter_map_same by (intros x; now rewrite Hkey);
     match goal with |- context [filter ?g ?t] => destruct (filter g t) end;
     reflexivity).
Qed.

(** *** More about the write and the marking *)

Lemma put_item_loop_recovers it max_retries k served rest :
  item_key it = Some k -> served <> Fails ->
  forall j retry_count w fuel,
    replies w = repeat Fails j ++ served :: rest ->
    (retry_count + Z.of_nat j < max_retries)%Z ->
    fuel = Z.to_nat (max_retries - retry_count) ->
    fst (put_item_loop fuel it max_retries retry_count w) =
      Some (Returned (Some true)) /\
    calls (snd (put_item_loop fuel it max_retries retry_count w)) =
      calls w ++ repeat (PutItem it false) j ++ [PutItem it true] /\
    table (snd (put_item_loop fuel it max_retries retry_count w)) =
      table_upsert k it (table w) /\
    replies (snd (put_item_loop fuel it max_retries retry_count w)) = rest.
Proof.
  intros Hk Hserved.
  induction j as [|j IH]; intros rc w fuel Hr Hlt Hfuel.
  - destruct fuel as [|fuel]; [lia|]. simpl.
    assert ((rc <? max_retries)%Z = true) as -> by (apply Z.ltb_lt; lia).
    unfold table_put_item, next_reply. rewrite Hr. simpl. rewrite Hk.
    destruct served; [|contradiction|]; simpl; auto.
  - destruct fuel as [|fuel]; [lia|]. simpl.
    assert ((rc <? max_retries)%Z = true) as -> by (apply Z.ltb_lt; lia).
    unfold table_put_item at 1 2 3 4, next_reply. rewrite Hr. simpl.
    assert ((rc + 1 >=? max_retries)%Z = false) as ->
      by (rewrite Z.geb_leb; apply Z.leb_gt; lia).
    match goal with |- context [put_item_loop fuel it max_retries _ ?w'] =>
      destruct (IH (rc + 1)%Z w' fuel) as (H1 & H2 & H3 & H4);
        [reflexivity | lia | lia |]
    end.
    simpl in H2, H3. rewrite H1, H2, H3, H4, <- app_assoc. auto.
Qed.

(** X10: transient failures below the ceiling do not lose the write: when the
    table rejects the first [j] writes, [j < max_retries], and serves the
    next one, the result is [True] after [j + 1] writes and the item is in
    the table under its key. *)
Theorem write_recovers_below_ceiling it max_retries k served rest j w :
  item_key it = Some k -> served <> Fails ->
  replies w = repeat Fails j ++ served :: rest ->
  (Z.of_nat j < max_retries)%Z ->
  fst (put_item_with_retry it max_retries w) = Returned (Some true) /\
  calls (snd (put_item_with_retry it max_retries w)) =
    calls w ++ repeat (PutItem it false) j ++ [PutItem it true] /\
  table_lookup k (table (snd (put_item_with_retry it max_retries w))) =
    Some it /\
  replies (snd (put_item_with_retry it max_retries w)) = rest.
Proof.
  intros Hk Hserved Hr Hlt. unfold put_item_with_retry.
  destruct (put_item_loop_recovers it max_retries k served rest Hk Hserved
              j 0%Z w (Z.to_nat max_retries) Hr)
    as (H1 & H2 & H3 & H4); [lia | f_equal; lia |].
  destruct (put_item_loop (Z.to_nat max_retries) it max_retries 0 w)
    as [[r|] w']; simpl in *; try discriminate.
  injection H1 as ->. repeat split; auto.
  rewrite H3. now apply table_lookup_upsert_same.
Qed.

(** X11: the outcomes of [update_event_status]. With an item that has [PK] and
    [SK] one update call is made; the result is [True] when it is served,
    and the item under the key then has the new [status] and the clock's
    reading as [processed_at] and its other fields as before; the result is
    [False], with the table as it was, when the call raises. On an item
    without [PK] or [SK] the function itself raises [KeyError], from the
    message of its [except] clause, and makes no call. *)
Theorem update_event_status_outcomes it new_status w :
  match dict_get it "PK", dict_get it "SK" with
  | Some pk, Some sk =>
      exists ok,
        fst (update_event_status it new_status w) = Returned ok /\
        calls (snd (update_event_status it new_status w)) =
          calls w ++ [UpdateItem pk sk new_status ok] /\
        if ok
        then exists k stored,
               item_key it = Some k /\
               table_lookup k (table (snd (update_event_status it new_status w)))
                 = Some stored /\
               dict_get stored "status" = Some (VStr new_status) /\
               dict_get stored "processed_at" =
                 Some (VStr (clock w (ticks w))) /\
               forall field,
                 field <> "status" -> field <> "processed_at" ->
                 dict_get stored field =
                 dict_get
                   match table_lookup k (table w) with
                   | Some old => old
                   | None => [("PK", pk); ("SK", sk)]
                   end field
        else table (snd (update_event_status it new_status w)) = table w
  | _, _ => update_event_status it new_status w = (Raised KeyError, w)
  end.
Proof.
  unfold update_event_status, try_except, bind, index, item_key.
  destruct (dict_get it "PK") as [pk|]; [|reflexivity].
  destruct (dict_get it "SK") as [sk|]; [|reflexivity].
  unfold table_update_item, next_reply, utcnow, ret. simpl.
  destruct (replies w) as [|r rest]; [|destruct r];
    destruct (key_of (Some pk) (Some sk)) as [k|] eqn:Ek; simpl;
    try (exists false; repeat split; reflexivity);
    (exists true; split; [reflexivity|]; split; [reflexivity|];
     exists k; eexists; split; [reflexivity|]; split;
     [ apply table_lookup_upsert_same; rewrite item_key_status_update;
       destruct (table_lookup k (table w)) as [old|] eqn:El;
       [ apply find_some in El as [_ El]; now apply has_key_item_key in El
       | exact Ek ]
     | split; [|split];
       [ rewrite dict_get_set_other by discriminate; apply dict_get_set_same
       | apply dict_get_set_same
       | intros field H1 H2;
         rewrite !dict_get_set_other by congruence; reflexivity ] ]).
Qed.

(** *** The handler removes nothing *)

(** Every key of the table of [w] is still a key of the table of [w']. *)
Definition keeps_items (w w' : world) : Prop :=
  forall k it, table_lookup k (table w) = Some it ->
               exists it', table_lookup k (table w') = Some it'.

(** Code that, run in any world, keeps the items of the table. *)
Definition gentle {A} (m : M A) : Prop :=
  forall w, keeps_items w (snd (m w)).

Lemma keeps_items_same_table w w' : table w' = table w -> keeps_items w w'.
Proof. intros H k it Hl. rewrite H. eauto. Qed.

Lemma keeps_items_trans w1 w2 w3 :
  keeps_items w1 w2 -> keeps_items w2 w3 -> keeps_items w1 w3.
Proof. intros H12 H23 k it Hl. apply H12 in Hl as [it' Hl]. eauto. Qed.

Lemma table_upsert_keeps k k' x t it :
  item_key x = Some k' -> table_lookup k t = Some it ->
  exists it', table_lookup k (table_upsert k' x t) = Some it'.
Proof.
  intros Hx Hl. destruct (key_eqb k k') eqn:E.
  - apply key_eqb_eq in E. subst k'. exists x.
    now apply table_lookup_upsert_same.
  - exists it. rewrite table_lookup_upsert_other; auto.
    intros ->. assert (key_eqb k' k' = true) by now apply key_eqb_eq.
    congruence.
Qed.

Lemma gentle_ret {A} (a : A) : gentle (ret a).
Proof. intros w. now apply keeps_items_same_table. Qed.

Lemma gentle_raise {A} e : gentle (@raise A e).
Proof. intros w. now apply keeps_items_same_table. Qed.

Lemma gentle_bind {A B} (m : M A) (f : A -> M B) :
  gentle m -> (forall a, gentle (f a)) -> gentle (bind m f).
Proof.
  intros Hm Hf w. unfold bind. specialize (Hm w).
  destruct (m w) as [[a|e] w1]; simpl in *; auto.
  eapply keeps_items_trans; [exact Hm|apply Hf].
Qed.

Lemma gentle_try_except {A} (m : M A) (h : exn -> M A) :
  gentle m -> (forall e, gentle (h e)) -> gentle (try_except m h).
Proof.
  intros Hm Hh w. unfold try_except. specialize (Hm w).
  destruct (m w) as [[a|e] w1]; simpl in *; auto.
  eapply keeps_items_trans; [exact Hm|apply Hh].
Qed.

Lemma gentle_utcnow : gentle utcnow.
Proof. intros w. now apply keeps_items_same_table. Qed.

Lemma gentle_new_uuid : gentle new_uuid.
Proof. intros w. now apply keeps_items_same_table. Qed.

Lemma gentle_index it k : gentle (index it k).
Proof. unfold index. destruct (dict_get it k); [apply gentle_ret|apply gentle_raise]. Qed.

Lemma gentle_table_query pk sk_prefix : gentle (table_query pk sk_prefix).
Proof.
  intros w. apply keeps_items_same_table.
  unfold table_query, next_reply.
  destruct (replies w) as [|r rest]; [|destruct r]; destruct pk; reflexivity.
Qed.

Lemma gentle_table_put_item it : gentle (table_put_item it).
Proof.
  intros w. unfold table_put_item, next_reply.
  destruct (replies w) as [|r rest]; [|destruct r];
    destruct (item_key it) as [k'|] eqn:Ek; simpl;
    try (now apply keeps_items_same_table);
    intros k x Hl; simpl; eapply table_upsert_keeps; eauto.
Qed.

Lemma gentle_table_update_item pk sk new_status processed_at :
  gentle (table_update_item pk sk new_status processed_at).
Proof.
  intros w. unfold table_update_item, next_reply.
  destruct (replies w) as [|r rest]; [|destruct r];
    destruct (key_of (Some pk) (Some sk)) as [k'|] eqn:Ek; simpl;
    try (now apply keeps_items_same_table);
    intros k x Hl; simpl; (eapply table_upsert_keeps; [|exact Hl]);
    rewrite item_key_status_update;
    (destruct (table_lookup k' (table w)) as [old|] eqn:El;
     [ apply find_some in El as [_ El]; now apply has_key_item_key in El
     | exact Ek ]).
Qed.

Lemma gentle_find_counterpart_event trip_id data_type :
  gentle (find_counterpart_event trip_id data_type).
Proof.
  unfold find_counterpart_event.
  apply gentle_try_except; [|intros; apply gentle_ret].
  apply gentle_bind; [apply gentle_table_query|].
  intros [[|first others]|];
    [apply gentle_ret|apply gentle_ret|apply gentle_raise].
Qed.

Lemma gentle_update_event_status it new_status :
  gentle (update_event_status it new_status).
Proof.
  unfold update_event_status.
  apply gentle_try_except.
  - repeat (apply gentle_bind;
            [first [apply gentle_index | apply gentle_utcnow
                   | apply gentle_table_update_item]|intros]).
    apply gentle_ret.
  - intros e. repeat (apply gentle_bind; [apply gentle_index|intros]).
    apply gentle_ret.
Qed.

Lemma keeps_items_put_item_loop it max_retries : forall fuel retry_count w,
  keeps_items w (snd (put_item_loop fuel it max_retries retry_count w)).
Proof.
  induction fuel as [|fuel IH]; intros rc w; simpl;
    destruct (rc <? max_retries)%Z; try (now apply keeps_items_same_table).
  pose proof (gentle_table_put_item it w) as Hput.
  destruct (table_put_item it w) as [[u|e] w1]; simpl in *; auto.
  destruct (rc + 1 >=? max_retries)%Z; simpl; auto.
  eapply keeps_items_trans; [exact Hput|apply IH].
Qed.

Lemma gentle_put_item_with_retry it max_retries :
  gentle (put_item_with_retry it max_retries).
Proof.
  intros w. unfold put_item_with_retry.
  pose proof (keeps_items_put_item_loop it max_retries
                (Z.to_nat max_retries) 0 w) as H.
  now destruct (put_item_loop _ it max_retries 0 w) as [[r|] w1].
Qed.

Lemma gentle_complete_pair data_type event_item counterpart_item :
  gentle (complete_pair data_type event_item counterpart_item).
Proof.
  unfold complete_pair.
  destruct (assign_roles data_type event_item counterpart_item)
    as [start_event end_event].
  apply gentle_bind.
  - unfold create_completed_trip_now.
    repeat (apply gentle_bind;
            [first [apply gentle_utcnow | apply gentle_new_uuid]|intros]).
    apply gentle_ret.
  - intros completed_trip.
    apply gentle_bind; [apply gentle_put_item_with_retry|].
    intros [[|]|]; try apply gentle_ret.
    repeat (apply gentle_bind; [apply gentle_update_event_status|intros]).
    apply gentle_ret.
Qed.

Lemma keeps_items_process_record record w :
  keeps_items w (process_record record w).
Proof.
  rewrite process_record_screened.
  destruct (screened record) as [[[pk data_type] event_item]|];
    [|now apply keeps_items_same_table].
  unfold correlate.
  apply gentle_bind; [apply gentle_find_counterpart_event|].
  intros [[|field fields]|]; try apply gentle_ret.
  apply gentle_complete_pair.
Qed.

(** X12: the handler deletes nothing: an item that is in the table before a
    batch is processed is under its key, as it was or updated, after the
    batch, whatever the records of the batch and the answers of the
    service. *)
Theorem handler_never_removes event w k it :
  table_lookup k (table w) = Some it ->
  exists it', table_lookup k (table (snd (lambda_handler event w))) = Some it'.
Proof.
  unfold lambda_handler. destruct event as [records|]; simpl; [|eauto].
  revert w it. induction records as [|record rest IH]; intros w it Hl;
    simpl; [eauto|].
  apply (keeps_items_process_record record w) in Hl as [it1 Hl].
  eapply IH. exact Hl.
Qed.

(** *** The table stays in key order *)

(** Code that, run on a table in key order, leaves it in key order. *)
Definition orderly {A} (m : M A) : Prop :=
  forall w, table_ordered (table w) -> table_ordered (table (snd (m w))).

Lemma orderly_same_table {A} (m : M A) :
  (forall w, table (snd (m w)) = table w) -> orderly m.
Proof. intros H w Hw. now rewrite H. Qed.

Lemma orderly_ret {A} (a : A) : orderly (ret a).
Proof. now apply orderly_same_table. Qed.

Lemma orderly_raise {A} e : orderly (@raise A e).
Proof. now apply orderly_same_table. Qed.

Lemma orderly_bind {A B} (m : M A) (f : A -> M B) :
  orderly m -> (forall a, orderly (f a)) -> orderly (bind m f).
Proof.
  intros Hm Hf w Hw. unfold bind. specialize (Hm w Hw).
  destruct (m w) as [[a|e] w1]; simpl in *; auto. now apply Hf.
Qed.

Lemma orderly_try_except {A} (m : M A) (h : exn -> M A) :
  orderly m -> (forall e, orderly (h e)) -> orderly (try_except m h).
Proof.
  intros Hm Hh w Hw. unfold try_except. specialize (Hm w Hw).
  destruct (m w) as [[a|e] w1]; simpl in *; auto. now apply Hh.
Qed.

Lemma orderly_utcnow : orderly utcnow.
Proof. now apply orderly_same_table. Qed.

Lemma orderly_new_uuid : orderly new_uuid.
Proof. now apply orderly_same_table. Qed.

Lemma orderly_index it k : orderly (index it k).
Proof.
  unfold index. destruct (dict_get it k); [apply orderly_ret|apply orderly_raise].
Qed.

Lemma orderly_table_query pk sk_prefix : orderly (table_query pk sk_prefix).
Proof.
  apply orderly_same_table. intros w. unfold table_query, next_reply.
  destruct (replies w) as [|r rest]; [|destruct r]; destruct pk; reflexivity.
Qed.

Lemma orderly_table_put_item it : orderly (table_put_item it).
Proof.
  intros w Hw. unfold table_put_item, next_reply.
  destruct (replies w) as [|r rest]; [|destruct r];
    destruct (item_key it) as [k'|] eqn:Ek; simpl; auto;
    now apply table_upsert_ordered.
Qed.

Lemma orderly_table_update_item pk sk new_status processed_at :
  orderly (table_update_item pk sk new_status processed_at).
Proof.
  intros w Hw. unfold table_update_item, next_reply.
  destruct (replies w) as [|r rest]; [|destruct r];
    destruct (key_of (Some pk) (Some sk)) as [k'|] eqn:Ek; simpl; auto;
    (apply table_upsert_ordered; auto);
    rewrite item_key_status_update;
    (destruct (table_lookup k' (table w)) as [old|] eqn:El;
     [ apply find_some in El as [_ El]; now apply has_key_item_key in El
     | exact Ek ]).
Qed.

Lemma orderly_find_counterpart_event trip_id data_type :
  orderly (find_counterpart_event trip_id data_type).
Proof.
  unfold find_counterpart_event.
  apply orderly_try_except; [|intros; apply orderly_ret].
  apply orderly_bind; [apply orderly_table_query|].
  intros [[|first others]|];
    [apply orderly_ret|apply orderly_ret|apply orderly_raise].
Qed.

Lemma orderly_update_event_status it new_status :
  orderly (update_event_status it new_status).
Proof.
  unfold update_event_status.
  apply orderly_try_except.
  - repeat (apply orderly_bind;
            [first [apply orderly_index | apply orderly_utcnow
                   | apply orderly_table_update_item]|intros]).
    apply orderly_ret.
  - intros e. repeat (apply orderly_bind; [apply orderly_index|intros]).
    apply orderly_ret.
Qed.

Lemma ordered_put_item_loop it max_retries : forall fuel retry_count w,
  table_ordered (table w) ->
  table_ordered
    (table (snd (put_item_loop fuel it max_retries retry_count w))).
Proof.
  induction fuel as [|fuel IH]; intros rc w Hw; simpl;
    destruct (rc <? max_retries)%Z; auto.
  pose proof (orderly_table_put_item it w Hw) as Hput.
  destruct (table_put_item it w) as [[u|e] w1]; simpl in *; auto.
  destruct (rc + 1 >=? max_retries)%Z; simpl; auto.
Qed.

Lemma orderly_put_item_with_retry it max_retries :
  orderly (put_item_with_retry it max_retries).
Proof.
  intros w Hw. unfold put_item_with_retry.
  pose proof (ordered_put_item_loop it max_retries
                (Z.to_nat max_retries) 0 w Hw) as H.
  now destruct (put_item_loop _ it max_retries 0 w) as [[r|] w1].
Qed.

Lemma orderly_complete_pair data_type event_item counterpart_item :
  orderly (complete_pair data_type event_item counterpart_item).
Proof.
  unfold complete_pair.
  destruct (assign_roles data_type event_item counterpart_item)
    as [start_event end_event].
  apply orderly_bind.
  - unfold create_completed_trip_now.
    repeat (apply orderly_bind;
            [first [apply orderly_utcnow | apply orderly_new_uuid]|intros]).
    apply orderly_ret.
  - intros completed_trip.
    apply orderly_bind; [apply orderly_put_item_with_retry|].
    intros [[|]|]; try apply orderly_ret.
    repeat (apply orderly_bind; [apply orderly_update_event_status|intros]).
    apply orderly_ret.
Qed.

Lemma ordered_process_record record w :
  table_ordered (table w) -> table_ordered (table (process_record record w)).
Proof.
  intros Hw. rewrite process_record_screened.
  destruct (screened record) as [[[pk data_type] event_item]|]; auto.
  revert w Hw. change (orderly (correlate pk data_type event_item)).
  unfold correlate.
  apply orderly_bind; [apply orderly_find_counterpart_event|].
  intros [[|field fields]|]; try apply orderly_ret.
  apply orderly_complete_pair.
Qed.

(** The handler leaves a table in key order in key order, whatever the
    records of the batch and the answers of the service: every state it
    reaches from the empty table has its items in the order in which a
    query lists them. *)
Lemma lambda_handler_ordered event w :
  table_ordered (table w) ->
  table_ordered (table (snd (lambda_handler event w))).
Proof.
  unfold lambda_handler. destruct event as [records|]; simpl; auto.
  revert w. induction records as [|record rest IH]; intros w Hw; simpl; auto.
  apply IH. now apply ordered_process_record.
Qed.

(** *** A pair completes *)

Lemma screened_inv record pk data_type event_item :
  screened record = Some (pk, data_type, event_item) ->
  exists ddb_item sk,
    NewImage record = Some ddb_item /\
    pk = attr_S_of ddb_item "PK" /\
    attr_S_of ddb_item "SK" = Some sk /\
    String.prefix "RAW#" sk = true /\
    in_list data_type ["trip_start"; "trip_end"] = true /\
    decode_image ddb_item [] = Returned event_item.
Proof.
  unfold screened.
  destruct (negb (eventName record =? "INSERT")); [discriminate|].
  destruct (NewImage record) as [ddb_item|]; [|discriminate].
  destruct (attr_S_of ddb_item "SK") as [sk|] eqn:Esk;
    [|simpl; discriminate].
  destruct (String.prefix "RAW#" sk) eqn:Eraw; [simpl|discriminate].
  destruct (attr_S_of ddb_item "data_type") as [dt|]; [|discriminate].
  destruct (dt =? ""); [discriminate|]. simpl.
  destruct (in_list dt ["trip_start"; "trip_end"]) eqn:Ek; [simpl|discriminate].
  destruct (decode_image ddb_item []) as [ev|] eqn:Edec; [|discriminate].
  intros H. injection H as <- <- <-. exists ddb_item, sk.
  repeat split; auto.
Qed.

Lemma find_counterpart_event_healthy trip_id data_type w :
  replies w = [] ->
  exists sk_prefix,
    find_counterpart_event (Some trip_id) data_type w =
    (Returned (find (is_counterpart trip_id data_type) (table w)),
     record_call (Query (Some trip_id) sk_prefix) w).
Proof.
  intros Hr. eexists. rewrite <- find_first_filtered.
  unfold find_counterpart_event, try_except, bind, table_query, next_reply.
  rewrite Hr. simpl.
  match goal with |- context [filter ?f ?t] =>
    change f with (is_counterpart trip_id data_type);
    destruct (filter (is_counterpart trip_id data_type) t)
  end; reflexivity.
Qed.

Lemma put_item_with_retry_healthy it k w :
  replies w = [] -> item_key it = Some k ->
  put_item_with_retry it 3 w =
  (Returned (Some true),
   record_call (PutItem it true) (set_table (table_upsert k it (table w)) w)).
Proof.
  intros Hr Hk. unfold put_item_with_retry. simpl.
  unfold table_put_item, next_reply. rewrite Hr, Hk. reflexivity.
Qed.

Lemma update_event_status_healthy it p s new_status w :
  replies w = [] ->
  dict_get it "PK" = Some (VStr p) -> dict_get it "SK" = Some (VStr s) ->
  exists w',
    update_event_status it new_status w = (Returned true, w') /\
    calls w' = calls w ++ [UpdateItem (VStr p) (VStr s) new_status true] /\
    replies w' = [].
Proof.
  intros Hr Hp Hs.
  unfold update_event_status, try_except, bind, index.
  rewrite Hp, Hs. unfold table_update_item, next_reply, utcnow, ret. simpl.
  rewrite Hr. unfold key_of. simpl. eexists. repeat split; auto.
Qed.

Lemma prefix_append s x : String.prefix s (s ++ x)%string = true.
Proof.
  induction s as [|a s IH]; [now destruct x|].
  cbn -[ascii_dec]. now destruct (ascii_dec a a).
Qed.

(** The calls of a record that reaches the lookup and finds its
    counterpart, when the service answers every call. *)
Lemma correlate_found record p data_type event_item counterpart_item w :
  (forall ddb_item, NewImage record = Some ddb_item -> dict_wf ddb_item) ->
  screened record = Some (Some p, data_type, event_item) ->
  replies w = [] ->
  find (is_counterpart p data_type) (table w) = Some counterpart_item ->
  let completed_trip :=
    create_completed_trip (ambient_of w)
      (fst (assign_roles data_type event_item counterpart_item))
      (snd (assign_roles data_type event_item counterpart_item)) in
  exists sk_event sk_counterpart sk_completed,
    dict_get event_item "SK" = Some (VStr sk_event) /\
    dict_get counterpart_item "SK" = Some (VStr sk_counterpart) /\
    calls (process_record record w) =
      calls w ++
      [ Query (Some p)
          (if data_type =? "trip_start" then "RAW#trip_end#"
           else "RAW#trip_start#");
        PutItem completed_trip true;
        UpdateItem (VStr p) (VStr sk_event) "processed_by_matcher" true;
        UpdateItem (VStr p) (VStr sk_counterpart) "processed_by_matcher" true ]
    /\
    item_key completed_trip = Some (p, sk_completed) /\
    String.prefix "COMPLETED#" sk_completed = true.
Proof.
  intros Hwf Hs Hr Hfind completed_trip.
  destruct (screened_inv _ _ _ _ Hs)
    as (ddb_item & sk & Himg & Hpk & Hsk & Hraw & Hkind & Hdec).
  pose proof (Hwf ddb_item Himg) as Hwfi.
  assert (dict_get event_item "PK" = Some (VStr p)) as Hev_pk.
  { unfold attr_S_of in Hpk.
    destruct (dict_get ddb_item "PK") as [[]|] eqn:E; try discriminate.
    injection Hpk as ->.
    exact (decode_image_string ddb_item [] event_item "PK" s Hdec Hwfi E). }
  assert (dict_get event_item "SK" = Some (VStr sk)) as Hev_sk.
  { unfold attr_S_of in Hsk.
    destruct (dict_get ddb_item "SK") as [[]|] eqn:E; try discriminate.
    injection Hsk as ->.
    exact (decode_image_string ddb_item [] event_item "SK" sk Hdec Hwfi E). }
  destruct (find_some _ _ Hfind) as [_ Hcp].
  destruct (is_counterpart_key _ _ _ Hcp) as (sk_cp & Hcp_pk & Hcp_sk).
  set (sk_completed :=
         ("COMPLETED#" ++
          format (dict_get_default
                    (snd (assign_roles data_type event_item counterpart_item))
                    "dropoff_datetime"
                    (VStr (utcnow_dropoff (ambient_of w)))))%string).
  assert (item_key completed_trip = Some (p, sk_completed)) as Hkey.
  { unfold item_key, completed_trip, sk_completed.
    rewrite sequence_key, skipped_key_generated by reflexivity.
    unfold assign_roles. destruct (data_type =? "trip_start"); simpl;
      unfold dict_get_default at 1;
      rewrite ?Hev_pk, ?Hcp_pk; reflexivity. }
  exists sk, sk_cp, sk_completed.
  split; [exact Hev_sk|]. split; [exact Hcp_sk|].
  split; [|split; [exact Hkey|apply prefix_append]].
  rewrite process_record_screened, Hs. unfold correlate, bind at 1.
  destruct (find_counterpart_event_healthy p data_type w Hr)
    as [sk_prefix Hq].
  assert (sk_prefix = if data_type =? "trip_start" then "RAW#trip_end#"
                      else "RAW#trip_start#") as Hprefix.
  { revert Hq. unfold find_counterpart_event, try_except, bind, table_query,
      next_reply. rewrite Hr. simpl.
    destruct (data_type =? "trip_start"); simpl;
      match goal with |- context [filter ?f ?t] => destruct (filter f t) end;
      simpl; intros H; apply (f_equal (fun x => calls (snd x))) in H;
      simpl in H; apply app_inv_head in H; now injection H. }
  rewrite Hq, <- Hprefix. clear Hprefix Hq.
  rewrite Hfind.
  destruct counterpart_item as [|field fields]; [discriminate|].
  unfold complete_pair.
  rewrite (surjective_pairing
             (assign_roles data_type event_item (field :: fields))).
  unfold bind at 1.
  unfold create_completed_trip_now, bind, utcnow, new_uuid, ret. simpl.
  change {| utcnow_dropoff := clock w (ticks w);
            utcnow_processing := clock w (S (ticks w));
            uuid4 := uuids w (drawn w) |} with (ambient_of w).
  fold completed_trip.
  erewrite put_item_with_retry_healthy; [|exact Hr|exact Hkey].
  match goal with |- context [update_event_status event_item ?st ?w3] =>
    destruct (update_event_status_healthy event_item p sk st w3)
      as (w4 & -> & Hc4 & Hr4); [exact Hr|exact Hev_pk|exact Hev_sk|]
  end.
  destruct (update_event_status_healthy (field :: fields) p sk_cp
              "processed_by_matcher" w4)
    as (w5 & -> & Hc5 & Hr5); [exact Hr4|exact Hcp_pk|exact Hcp_sk|].
  simpl. rewrite Hc5, Hc4. simpl. rewrite <- !app_assoc. reflexivity.
Qed.

(** C3, as the code has it. The merge reads the clock and draws a uuid, so
    it is a function of the two events and of those readings: two runs on
    the same events build records with the same keys in the same order and
    the same value under every key other than [SK],
    [processing_timestamp_lambda2] and [correlation_id]. In the handler the
    event of the record comes from the stream image and its counterpart
    from the table. When the service answers every call and the item the
    lookup returns is the event the image of the other half decodes to, the
    record of the end event and the record of the start event each write,
    after one query, the merge of the same pair with the start event in the
    start role and the end event in the end role; the two written records
    have the same keys in the same order and the same value under every key
    other than the three. *)
Theorem C3_merge_determined_up_to_ambient
  amb1 amb2 start_event end_event k :
  in_list k ambient_keys = false ->
  (dict_keys (create_completed_trip amb1 start_event end_event) =
     dict_keys (create_completed_trip amb2 start_event end_event) /\
   dict_get (create_completed_trip amb1 start_event end_event) k =
     dict_get (create_completed_trip amb2 start_event end_event) k) /\
  forall start_record end_record p w1 w2,
    (forall ddb_item,
       NewImage start_record = Some ddb_item -> dict_wf ddb_item) ->
    (forall ddb_item,
       NewImage end_record = Some ddb_item -> dict_wf ddb_item) ->
    screened start_record = Some (Some p, "trip_start", start_event) ->
    screened end_record = Some (Some p, "trip_end", end_event) ->
    replies w1 = [] -> replies w2 = [] ->
    find (is_counterpart p "trip_end") (table w1) = Some start_event ->
    find (is_counterpart p "trip_start") (table w2) = Some end_event ->
    let start_first :=
      create_completed_trip (ambient_of w1) start_event end_event in
    let end_first :=
      create_completed_trip (ambient_of w2) start_event end_event in
    (exists sk_start sk_end,
       calls (process_record end_record w1) =
         calls w1 ++
         [ Query (Some p) "RAW#trip_start#";
           PutItem start_first true;
           UpdateItem (VStr p) (VStr sk_end) "processed_by_matcher" true;
           UpdateItem (VStr p) (VStr sk_start) "processed_by_matcher" true ]
       /\
       calls (process_record start_record w2) =
         calls w2 ++
         [ Query (Some p) "RAW#trip_end#";
           PutItem end_first true;
           UpdateItem (VStr p) (VStr sk_start) "processed_by_matcher" true;
           UpdateItem (VStr p) (VStr sk_end) "processed_by_matcher" true ]) /\
    dict_keys start_first = dict_keys end_first /\
    dict_get start_first k = dict_get end_first k.
Proof.
  intros Hk.
  assert (forall a1 a2,
            dict_keys (create_completed_trip a1 start_event end_event) =
              dict_keys (create_completed_trip a2 start_event end_event) /\
            dict_get (create_completed_trip a1 start_event end_event) k =
              dict_get (create_completed_trip a2 start_event end_event) k)
    as Hagree.
  { intros a1 a2.
    pose proof (create_completed_trip_agree a1 a2 start_event end_event) as H.
    split; [now apply agree_outside_keys in H|].
    now apply (agree_outside_get _ _ _ _ H). }
  split; [apply Hagree|].
  intros start_record end_record p w1 w2 Hwfs Hwfe Hs He Hr1 Hr2 Hf1 Hf2
    start_first end_first.
  split; [|apply Hagree].
  destruct (correlate_found end_record p "trip_end" end_event start_event w1
              Hwfe He Hr1 Hf1)
    as (sk_e1 & sk_s1 & sk_c1 & Hsk_e1 & Hsk_s1 & Hc1 & _ & _).
  destruct (correlate_found start_record p "trip_start" start_event end_event
              w2 Hwfs Hs Hr2 Hf2)
    as (sk_s2 & sk_e2 & sk_c2 & Hsk_s2 & Hsk_e2 & Hc2 & _ & _).
  assert (sk_s2 = sk_s1) as -> by congruence.
  assert (sk_e2 = sk_e1) as -> by congruence.
  exists sk_s1, sk_e1. split; [exact Hc1|exact Hc2].
Qed.

(** X13: when the service answers every call, a record that reaches the lookup
    and whose counterpart is in the table completes the pair: the handler
    makes the query, one write of the merged record and the two markings,
    in this order, and the merged record is in the table under the
    identifier and its [COMPLETED#] sort key. *)
Theorem pair_completes record p data_type event_item counterpart_item w :
  (forall ddb_item, NewImage record = Some ddb_item -> dict_wf ddb_item) ->
  screened record = Some (Some p, data_type, event_item) ->
  replies w = [] ->
  find (is_counterpart p data_type) (table w) = Some counterpart_item ->
  let amb :=
    {| utcnow_dropoff := clock w (ticks w);
       utcnow_processing := clock w (S (ticks w));
       uuid4 := uuids w (drawn w) |} in
  let completed_trip :=
    create_completed_trip amb
      (fst (assign_roles data_type event_item counterpart_item))
      (snd (assign_roles data_type event_item counterpart_item)) in
  exists sk_prefix sk_event sk_counterpart sk_completed,
    calls (process_record record w) =
      calls w ++
      [ Query (Some p) sk_prefix;
        PutItem completed_trip true;
        UpdateItem (VStr p) (VStr sk_event) "processed_by_matcher" true;
        UpdateItem (VStr p) (VStr sk_counterpart) "processed_by_matcher" true ]
    /\
    item_key completed_trip = Some (p, sk_completed) /\
    String.prefix "COMPLETED#" sk_completed = true /\
    table_lookup (p, sk_completed) (table (process_record record w)) =
      Some completed_trip.
Proof.
  intros Hwf Hs Hr Hfind amb completed_trip.
  destruct (correlate_found record p data_type event_item counterpart_item w
              Hwf Hs Hr Hfind)
    as (sk & sk_cp & sk_completed & _ & _ & Hcalls & Hkey & Hprefix).
  fold amb in Hcalls, Hkey. fold completed_trip in Hcalls, Hkey.
  eexists _, sk, sk_cp, sk_completed.
  split; [exact Hcalls|]. split; [exact Hkey|].
  split; [exact Hprefix|].
  destruct (process_record_spec record w _ Hwf eq_refl)
    as (trace & Htrace & _ & Hstored).
  rewrite Hcalls in Htrace. apply app_inv_head in Htrace. subst trace.
  apply (Hstored completed_trip); [simpl; auto|exact Hkey].
Qed.

End Matcher.

Arguments VStr {decimal} s.
Arguments VNum {decimal} n.
Arguments VBool {decimal} b.
Arguments VNone {decimal}.
Arguments Returned {A} a.
Arguments Raised {A} e.
Arguments Query {decimal} pk sk_prefix.
Arguments PutItem {decimal} it ok.
Arguments UpdateItem {decimal} pk sk new_status ok.
Arguments table {decimal} w.
Arguments calls {decimal} w.
Arguments item_key {decimal} it.
Arguments table_lookup {decimal} k t.
Arguments marks_only_after_write {decimal} written trace.
Arguments written_items {decimal} trace.

(** *** Worked examples

    In the examples a [Decimal] is stood for by its text. *)

Definition text_Decimal (s : string) : option string := Some s.

Definition text_str (n : string) : string := n.

Definition merge := create_completed_trip string text_str.

Definition first_run : ambient :=
  {| utcnow_dropoff := "2025-05-22T10:00:00.000001";
     utcnow_processing := "2025-05-22T10:00:00.000002";
     uuid4 := "3f2b8c1e-0000-4000-8000-000000000001" |}.

Definition second_run : ambient :=
  {| utcnow_dropoff := "2025-05-22T10:00:07.000001";
     utcnow_processing := "2025-05-22T10:00:07.000002";
     uuid4 := "3f2b8c1e-0000-4000-8000-000000000002" |}.

Definition trip_start_T1 : item string :=
  [ ("PK", VStr "T1");
    ("SK", VStr "RAW#trip_start#2025-05-22T09:00:00");
    ("data_type", VStr "trip_start");
    ("status", VStr "pending");
    ("processing_timestamp_lambda1", VStr "2025-05-22T09:00:01");
    ("trip_id", VStr "T1");
    ("pickup_datetime", VStr "2025-05-22T09:00:00");
    ("fare_amount", VNum "12.5") ].

Definition trip_end_T1 : item string :=
  [ ("PK", VStr "T1");
    ("SK", VStr "RAW#trip_end#2025-05-22T09:30:00");
    ("data_type", VStr "trip_end");
    ("status", VStr "arrived");
    ("processing_timestamp_lambda1", VStr "2025-05-22T09:30:01");
    ("trip_id", VStr "T1");
    ("dropoff_datetime", VStr "2025-05-22T09:30:00");
    ("fare_amount", VNum "13.0");
    ("tip_amount", VNum "2.0") ].

Ltac distinct_keys :=
  unfold dict_wf; simpl; repeat constructor; simpl; intuition discriminate.

Lemma trip_start_T1_wf : dict_wf trip_start_T1.
Proof. distinct_keys. Defined.

Lemma trip_end_T1_wf : dict_wf trip_end_T1.
Proof. distinct_keys. Defined.



(** The side condition of C1 at work: the start event has fields [zone] and
    [end_zone], the end event a field [zone]; the end field, renamed, takes
    the place of the start event's [end_zone]. *)
Example renamed_end_field_lands_on_start_field :
  let start_event : item string :=
    [ ("PK", VStr "T1"); ("zone", VStr "A"); ("end_zone", VStr "B") ] in
  let end_event : item string :=
    [ ("PK", VStr "T1"); ("zone", VStr "C") ] in
  dict_get (merge first_run start_event end_event) "zone" = Some (VStr "A") /\
  dict_get (merge first_run start_event end_event) "end_zone" =
    Some (VStr "C").
Proof. split; reflexivity. Qed.

Lemma C2_sequence_key_from_dropoff_witness :
  dict_get (merge first_run trip_start_T1 trip_end_T1) "SK" =
    Some (VStr "COMPLETED#2025-05-22T09:30:00") /\
  dict_get (merge second_run trip_start_T1 trip_end_T1) "SK" =
    dict_get (merge first_run trip_start_T1 trip_end_T1) "SK".
Proof.
  apply (C2_sequence_key_from_dropoff string text_str first_run second_run
           trip_start_T1 trip_end_T1 (VStr "2025-05-22T09:30:00")).
  reflexivity.
Defined.

(** C3: two runs of the merge on the same pair give different records. *)
Lemma C3_two_runs_differ :
  dict_get (merge first_run trip_start_T1 trip_end_T1) "correlation_id" =
    Some (VStr "3f2b8c1e-0000-4000-8000-000000000001") /\
  dict_get (merge second_run trip_start_T1 trip_end_T1) "correlation_id" =
    Some (VStr "3f2b8c1e-0000-4000-8000-000000000002") /\
  merge first_run trip_start_T1 trip_end_T1 <>
    merge second_run trip_start_T1 trip_end_T1.
Proof.
  repeat split. intros H.
  apply (f_equal (fun d => dict_get d "correlation_id")) in H.
  discriminate H.
Qed.

(** C4: both events carry [status], and the merged record has no
    [end_status]. *)
Lemma C4_no_end_status :
  dict_get trip_start_T1 "status" = Some (VStr "pending") /\
  dict_get trip_end_T1 "status" = Some (VStr "arrived") /\
  dict_get (merge first_run trip_start_T1 trip_end_T1) "status" =
    Some (VStr "completed") /\
  dict_get (merge first_run trip_start_T1 trip_end_T1) "end_status" = None.
Proof. repeat split. Qed.

Lemma C4_status_is_completed_witness :
  dict_get (merge first_run trip_start_T1 trip_end_T1) "status" =
    Some (VStr "completed") /\
  dict_get (merge first_run trip_start_T1 trip_end_T1) "end_status" = None.
Proof.
  apply (C4_status_is_completed string text_str first_run
           trip_start_T1 trip_end_T1); reflexivity.
Defined.

Definition traced_start : item string :=
  [ ("PK", VStr "T1");
    ("SK", VStr "RAW#trip_start#2025-05-22T09:00:00");
    ("correlation_id", VStr "upstream-trace-77") ].

Definition traced_end : item string :=
  [ ("PK", VStr "T1");
    ("SK", VStr "RAW#trip_end#2025-05-22T09:30:00");
    ("correlation_id", VStr "upstream-trace-78") ].

Lemma C10_start_field_overwrites_generated_witness :
  dict_get (merge first_run traced_start trip_end_T1) "correlation_id" =
    Some (VStr "upstream-trace-77") /\
  dict_get (merge first_run trip_start_T1 traced_end) "correlation_id" =
    Some (VStr "3f2b8c1e-0000-4000-8000-000000000001") /\
  dict_get (merge first_run trip_start_T1 traced_end) "end_correlation_id" =
    Some (VStr "upstream-trace-78").
Proof.
  assert (dict_wf traced_start) as Hs by distinct_keys.
  assert (dict_wf traced_end) as He by distinct_keys.
  split.
  - destruct (C10_start_field_overwrites_generated string text_str first_run
                traced_start trip_end_T1 "correlation_id" Hs trip_end_T1_wf
                (or_introl eq_refl)) as [Hfrom_start _].
    apply Hfrom_start. reflexivity.
  - destruct (C10_start_field_overwrites_generated string text_str first_run
                trip_start_T1 traced_end "correlation_id" trip_start_T1_wf He
                (or_introl eq_refl)) as [_ Hfrom_end].
    apply (Hfrom_end (VStr "upstream-trace-78")); reflexivity.
Defined.

(** *** Worked examples for the handler *)

Definition digit (n : nat) : string :=
  String (ascii_of_nat (48 + Nat.modulo n 10)) "".

Definition example_clock (n : nat) : string :=
  ("2025-05-22T10:00:0" ++ digit n)%string.

Definition example_uuids (n : nat) : string :=
  ("3f2b8c1e-0000-4000-8000-00000000000" ++ digit n)%string.

(** A world with the given table and the given answers to come. *)
Definition world_with (t : list (item string)) (rs : list reply)
  : world string :=
  {| table := t; replies := rs; clock := example_clock; ticks := 0;
     uuids := example_uuids; drawn := 0; calls := [] |}.

Definition handler := lambda_handler string text_Decimal text_str.

Definition process := process_record string text_Decimal text_str.

Definition end_image_T1 : dict attr :=
  [ ("PK", AttrS "T1");
    ("SK", AttrS "RAW#trip_end#2025-05-22T09:30:00");
    ("data_type", AttrS "trip_end");
    ("status", AttrS "arrived");
    ("dropoff_datetime", AttrS "2025-05-22T09:30:00");
    ("fare_amount", AttrN "13.0") ].

Definition end_record_T1 : stream_record :=
  {| eventName := "INSERT"; NewImage := Some end_image_T1 |}.


Definition nameless_record : stream_record :=
  {| eventName := "INSERT";
     NewImage :=
       Some [ ("SK", AttrS "RAW#trip_start#2025-05-22T09:00:00");
              ("data_type", AttrS "trip_start");
              ("fare_amount", AttrN "12.5") ] |}.

Definition keyless_item : item string :=
  [ ("SK", VStr "COMPLETED#2025-05-22T09:30:00");
    ("trip_id", VStr "T1");
    ("status", VStr "completed") ].

(** C5: the table holds the counterpart and the query fails; the answer is
    the one given when the table is empty. *)
Lemma C5_outage_reads_as_not_found :
  fst (find_counterpart_event string (Some "T1") "trip_start"
         (world_with [trip_end_T1] [Fails])) = Returned None /\
  fst (find_counterpart_event string (Some "T1") "trip_start"
         (world_with [] [Answers])) = Returned None /\
  fst (find_counterpart_event string (Some "T1") "trip_start"
         (world_with [trip_end_T1] [Answers])) = Returned (Some trip_end_T1).
Proof. repeat split. Qed.

Lemma C5_failed_query_reads_as_not_found_witness :
  fst (find_counterpart_event string (Some "T1") "trip_start"
         (world_with [trip_end_T1] [Garbled])) = Returned None.
Proof.
  apply C5_failed_query_reads_as_not_found. right. reflexivity.
Defined.



(** C7: the table rejects an item without [PK] each time, and the write is
    made three times. *)
Lemma C7_rejected_item_written_three_times :
  item_key keyless_item = None /\
  fst (put_item_with_retry string keyless_item 3 (world_with [] [])) =
    Returned (Some false) /\
  calls (snd (put_item_with_retry string keyless_item 3 (world_with [] []))) =
    [ PutItem keyless_item false;
      PutItem keyless_item false;
      PutItem keyless_item false ].
Proof. repeat split. Qed.

(** The trip end arrives, the start is in the table, the write succeeds and
    both markings fail: the completed trip stays in the table. *)
Example marking_failures_keep_completed_trip :
  let w := process end_record_T1
             (world_with [trip_start_T1] [Answers; Answers; Fails; Fails]) in
  exists completed_trip,
    calls w =
      [ Query (Some "T1") "RAW#trip_start#";
        PutItem completed_trip true;
        UpdateItem (VStr "T1") (VStr "RAW#trip_end#2025-05-22T09:30:00")
          "processed_by_matcher" false;
        UpdateItem (VStr "T1") (VStr "RAW#trip_start#2025-05-22T09:00:00")
          "processed_by_matcher" false ] /\
    table_lookup ("T1", "COMPLETED#2025-05-22T09:30:00") (table w) =
      Some completed_trip.
Proof. eexists. split; reflexivity. Qed.

Lemma C8_marking_follows_write_witness :
  exists trace,
    calls (process end_record_T1
             (world_with [trip_start_T1] [Answers; Answers; Fails; Fails])) =
      calls (world_with [trip_start_T1] [Answers; Answers; Fails; Fails])
      ++ trace /\
    marks_only_after_write false trace = true /\
    (forall completed_trip k,
       In (PutItem completed_trip true) trace ->
       item_key completed_trip = Some k ->
       table_lookup k
         (table (process end_record_T1
                   (world_with [trip_start_T1]
                      [Answers; Answers; Fails; Fails]))) =
         Some completed_trip).
Proof.
  apply (C8_marking_follows_write string text_Decimal text_str end_record_T1).
  intros ddb_item H. simpl in H. injection H as <-. distinct_keys.
Defined.

(** *** Worked examples for the further properties *)

Lemma merge_keeps_every_field_name_witness :
  dict_mem (merge first_run trip_start_T1 trip_end_T1) "tip_amount" = true.
Proof.
  apply (merge_keeps_every_field_name string text_str first_run
           trip_start_T1 trip_end_T1 "tip_amount").
  - right. simpl. tauto.
  - reflexivity.
Defined.

Lemma merge_field_names_origin_witness :
  In "end_fare_amount"
    ["PK"; "SK"; "trip_id"; "status"; "processing_timestamp_lambda2";
     "correlation_id"; "data_type"] \/
  In "end_fare_amount" (dict_keys trip_start_T1) \/
  In "end_fare_amount" (dict_keys trip_end_T1) \/
  (exists k', In k' (dict_keys trip_end_T1) /\
              "end_fare_amount" = ("end_" ++ k')%string).
Proof.
  apply (merge_field_names_origin string text_Decimal text_str first_run
           trip_start_T1 trip_end_T1 "end_fare_amount").
  reflexivity.
Defined.

Lemma merge_identity_fields_witness :
  dict_get (merge first_run trip_start_T1 traced_end) "data_type" =
    Some (VStr "completed_trip") /\
  dict_get (merge first_run trip_start_T1 traced_end) "PK" =
    Some (VStr "T1") /\
  dict_get (merge first_run trip_start_T1 traced_end) "trip_id" =
    Some (VStr "T1").
Proof.
  apply (merge_identity_fields string text_str first_run
           trip_start_T1 traced_end); [exact trip_start_T1_wf|distinct_keys].
Defined.

(** The event the handler decodes from [end_image_T1]. *)
Definition end_event_T1 : item string :=
  [ ("PK", VStr "T1");
    ("SK", VStr "RAW#trip_end#2025-05-22T09:30:00");
    ("data_type", VStr "trip_end");
    ("status", VStr "arrived");
    ("dropoff_datetime", VStr "2025-05-22T09:30:00");
    ("fare_amount", VNum "13.0") ].

Lemma end_image_T1_wf : dict_wf end_image_T1.
Proof. distinct_keys. Defined.

Lemma decode_image_fields_witness :
  dict_get end_event_T1 "fare_amount" = Some (VNum "13.0").
Proof.
  apply (decode_image_fields string text_Decimal end_image_T1 end_event_T1
           "fare_amount" end_image_T1_wf).
  reflexivity.
Defined.

Definition start_image_T1 : dict attr :=
  [ ("PK", AttrS "T1");
    ("SK", AttrS "RAW#trip_start#2025-05-22T09:00:00");
    ("data_type", AttrS "trip_start");
    ("status", AttrS "pending");
    ("pickup_datetime", AttrS "2025-05-22T09:00:00");
    ("fare_amount", AttrN "12.5") ].

Definition start_record_T1 : stream_record :=
  {| eventName := "INSERT"; NewImage := Some start_image_T1 |}.

(** The event the handler decodes from [start_image_T1]. *)
Definition start_event_T1 : item string :=
  [ ("PK", VStr "T1");
    ("SK", VStr "RAW#trip_start#2025-05-22T09:00:00");
    ("data_type", VStr "trip_start");
    ("status", VStr "pending");
    ("pickup_datetime", VStr "2025-05-22T09:00:00");
    ("fare_amount", VNum "12.5") ].

(** The start event is in the table when the record of the end event is
    processed, and the other way round, at two different times: both
    records write the merge of the start event and the end event, and the
    two written records differ in [processing_timestamp_lambda2] and
    [correlation_id] only. *)
Lemma C3_merge_determined_up_to_ambient_witness :
  let w1 := world_with [start_event_T1] [] in
  let w2 :=
    {| table := [end_event_T1]; replies := []; clock := example_clock;
       ticks := 4; uuids := example_uuids; drawn := 1; calls := [] |} in
  let start_first := merge (ambient_of string w1) start_event_T1 end_event_T1 in
  let end_first := merge (ambient_of string w2) start_event_T1 end_event_T1 in
  (dict_keys (merge first_run start_event_T1 end_event_T1) =
     dict_keys (merge second_run start_event_T1 end_event_T1) /\
   dict_get (merge first_run start_event_T1 end_event_T1) "end_fare_amount" =
     dict_get (merge second_run start_event_T1 end_event_T1) "end_fare_amount")
  /\
  (exists sk_start sk_end,
     calls (process end_record_T1 w1) =
       calls w1 ++
       [ Query (Some "T1") "RAW#trip_start#";
         PutItem start_first true;
         UpdateItem (VStr "T1") (VStr sk_end) "processed_by_matcher" true;
         UpdateItem (VStr "T1") (VStr sk_start) "processed_by_matcher" true ]
     /\
     calls (process start_record_T1 w2) =
       calls w2 ++
       [ Query (Some "T1") "RAW#trip_end#";
         PutItem end_first true;
         UpdateItem (VStr "T1") (VStr sk_start) "processed_by_matcher" true;
         UpdateItem (VStr "T1") (VStr sk_end) "processed_by_matcher" true ]) /\
  dict_keys start_first = dict_keys end_first /\
  dict_get start_first "end_fare_amount" = dict_get end_first "end_fare_amount".
Proof.
  intros w1 w2 start_first end_first.
  destruct (C3_merge_determined_up_to_ambient string text_Decimal text_str
              first_run second_run start_event_T1 end_event_T1
              "end_fare_amount" eq_refl)
    as [Hruns Hhandler].
  split; [exact Hruns|].
  apply (Hhandler start_record_T1 end_record_T1 "T1" w1 w2).
  - intros ddb_item H. simpl in H. injection H as <-. distinct_keys.
  - intros ddb_item H. simpl in H. injection H as <-. distinct_keys.
  - reflexivity.
  - reflexivity.
  - reflexivity.
  - reflexivity.
  - reflexivity.
  - reflexivity.
Defined.

(** Both halves are in the table when their two records come in one batch:
    the first record completes the pair and marks both events, so the
    counterpart the second record reads from the table carries
    [processed_at], which the image of that event does not; the second
    written record has the field, the first has not. *)
Example second_merge_of_a_batch_carries_processed_at :
  map (fun it => dict_get it "processed_at")
    (written_items
       (calls (snd (handler (Some [start_record_T1; end_record_T1])
                      (world_with [end_event_T1; start_event_T1] []))))) =
  [None; Some (VStr "2025-05-22T10:00:02")].
Proof. vm_compute. reflexivity. Qed.

(** The stream record of a completed trip, as the table's stream gives it
    back to the handler. *)
Definition completed_record : stream_record :=
  {| eventName := "INSERT";
     NewImage :=
       Some [ ("PK", AttrS "T1");
              ("SK", AttrS "COMPLETED#2025-05-22T09:30:00");
              ("data_type", AttrS "completed_trip");
              ("status", AttrS "completed") ] |}.

Lemma record_passed_over_witness :
  process completed_record (world_with [trip_start_T1; trip_end_T1] []) =
  world_with [trip_start_T1; trip_end_T1] [].
Proof.
  apply (record_passed_over string text_Decimal text_str completed_record).
  right. right. eexists. split; [reflexivity|].
  right. left. eexists. split; reflexivity.
Defined.

Lemma unmatched_event_waits_witness :
  exists sk_prefix,
    calls (process end_record_T1 (world_with [] [])) =
      calls (world_with [] []) ++ [Query (Some "T1") sk_prefix] /\
    table (process end_record_T1 (world_with [] [])) =
      table (world_with [] []).
Proof.
  apply (unmatched_event_waits string text_Decimal text_str end_record_T1
           (Some "T1") "trip_end" end_event_T1); reflexivity.
Defined.




(** The marking of an item as processed, as [update_item] stores it. *)
Definition marked (it : item string) : item string :=
  dict_set (dict_set it "status" (VStr "processed_by_matcher"))
    "processed_at" (VStr "2025-05-22T10:00:03").

Lemma locator_reads_keys_only_witness :
  fst (find_counterpart_event string (Some "T1") "trip_end"
         (set_table string (map marked [trip_end_T1; trip_start_T1])
            (world_with [trip_end_T1; trip_start_T1] []))) =
  match fst (find_counterpart_event string (Some "T1") "trip_end"
               (world_with [trip_end_T1; trip_start_T1] [])) with
  | Returned (Some it) => Returned (Some (marked it))
  | other => other
  end.
Proof.
  apply (locator_reads_keys_only string marked (Some "T1") "trip_end"
           (world_with [trip_end_T1; trip_start_T1] [])).
  intros it. apply item_key_status_update.
Defined.

Lemma write_recovers_below_ceiling_witness :
  let it := merge first_run trip_start_T1 trip_end_T1 in
  let w := world_with [] [Fails; Fails; Answers; Fails] in
  fst (put_item_with_retry string it 3 w) = Returned (Some true) /\
  calls (snd (put_item_with_retry string it 3 w)) =
    calls w ++ repeat (PutItem it false) 2 ++ [PutItem it true] /\
  table_lookup ("T1", "COMPLETED#2025-05-22T09:30:00")
    (table (snd (put_item_with_retry string it 3 w))) = Some it /\
  replies string (snd (put_item_with_retry string it 3 w)) = [Fails].
Proof.
  apply (write_recovers_below_ceiling string
           (merge first_run trip_start_T1 trip_end_T1) 3
           ("T1", "COMPLETED#2025-05-22T09:30:00") Answers [Fails] 2
           (world_with [] [Fails; Fails; Answers; Fails]));
    [reflexivity | discriminate | reflexivity | lia].
Defined.

Lemma handler_never_removes_witness :
  exists it',
    table_lookup ("T1", "RAW#trip_start#2025-05-22T09:00:00")
      (table (snd (handler (Some [end_record_T1; nameless_record])
                     (world_with [trip_start_T1] [])))) = Some it'.
Proof.
  apply (handler_never_removes string text_Decimal text_str
           (Some [end_record_T1; nameless_record])
           (world_with [trip_start_T1] [])
           ("T1", "RAW#trip_start#2025-05-22T09:00:00") trip_start_T1).
  reflexivity.
Defined.

Lemma pair_completes_witness :
  let w := world_with [trip_start_T1] [] in
  let amb :=
    {| utcnow_dropoff := example_clock 0;
       utcnow_processing := example_clock 1;
       uuid4 := example_uuids 0 |} in
  let completed_trip := merge amb trip_start_T1 end_event_T1 in
  exists sk_prefix sk_event sk_counterpart sk_completed,
    calls (process end_record_T1 w) =
      calls w ++
      [ Query (Some "T1") sk_prefix;
        PutItem completed_trip true;
        UpdateItem (VStr "T1") (VStr sk_event) "processed_by_matcher" true;
        UpdateItem (VStr "T1") (VStr sk_counterpart) "processed_by_matcher"
          true ]
    /\
    item_key completed_trip = Some ("T1", sk_completed) /\
    String.prefix "COMPLETED#" sk_completed = true /\
    table_lookup ("T1", sk_completed) (table (process end_record_T1 w)) =
      Some completed_trip.
Proof.
  apply (pair_completes string text_Decimal text_str end_record_T1
           "T1" "trip_end" end_event_T1 trip_start_T1
           (world_with [trip_start_T1] [])).
  - intros ddb_item H. simpl in H. injection H as <-. distinct_keys.
  - reflexivity.
  - reflexivity.
  - reflexivity.
Defined.

End Lambda2.

(** ** [scripts/glue_scripts.py] *)

Module GlueScripts.

Section Job.

(** Python's [float] and pandas are not code of the repository. Taken as
    given: the floats and [float(s)] ([None] when it raises [ValueError]);
    [pd.to_datetime(column, errors="coerce")] followed by [.dt.date], and
    [pd.to_numeric(column, errors="coerce")]. Both are functions of the
    whole column, not of one cell: pandas may settle how to read a column
    from the values it finds in it, so what a cell is read as can depend on
    the other cells. [None] stands for the missing value ([NaT], [NaN])
    that [dropna] removes. *)
Variable float : Type.
Variable float_of_str : string -> option float.

(** A cell of a scanned item: a string, a number, or [None]. *)
Inductive cell : Type :=
  | CStr (s : string)
  | CNum (x : float)
  | CNone.

Variable date : Type.
Variable date_eq_dec : forall a b : date, {a = b} + {a <> b}.
Variable to_datetime : list cell -> list (option date).
Variable to_numeric : list cell -> list (option float).

Definition row : Type := dict cell.

(** One round of the loop of lines 61-69; [float(value["N"])] may raise. *)
Definition convert_field (processed_item : row) (kv : string * attr)
  : option row :=
  let '(key, value) := kv in
  match value with
  | AttrS s => Some (dict_set processed_item key (CStr s))
  | AttrN n =>
      match float_of_str n with
      | Some x => Some (dict_set processed_item key (CNum x))
      | None => None
      end
  | _ => Some processed_item
  end.

Fixpoint convert_fields (item : dict attr) (processed_item : row)
  : option row :=
  match item with
  | [] => Some processed_item
  | kv :: rest =>
      match convert_field processed_item kv with
      | Some processed_item' => convert_fields rest processed_item'
      | None => None
      end
  end.

(** [processed_item[k] = processed_item.get(k)], lines 72-76. *)
Definition ensure_key (processed_item : row) (k : string) : row :=
  dict_set processed_item k (dict_get_default processed_item k CNone).

(** Lines 60-76 for one item of a response. *)
Definition convert_item (item : dict attr) : option row :=
  match convert_fields item [] with
  | Some processed_item =>
      Some (ensure_key
              (ensure_key (ensure_key processed_item "trip_id")
                 "pickup_datetime")
              "fare_amount")
  | None => None
  end.

(** The loop of lines 58-78 over the items of one response; [items] is the
    list built so far. *)
Fixpoint convert_page (page : list (dict attr)) (items : list row)
  : option (list row) :=
  match page with
  | [] => Some items
  | item :: rest =>
      match convert_item item with
      | Some processed_item => convert_page rest (items ++ [processed_item])
      | None => None
      end
  end.

(** The loop of lines 47-90. The scan reaches the job as the responses of
    the successive [scan] calls: [None] for a call that raises, a page of
    items otherwise; every page but the last carries [LastEvaluatedKey].
    An exception, of a call or of a conversion, makes the result [None]. *)
Fixpoint scan_pages (pages : list (option (list (dict attr))))
  (items : list row) : option (list row) :=
  match pages with
  | [] => Some items
  | None :: _ => None
  | Some page :: rest =>
      match convert_page page items with
      | Some items' => scan_pages rest items'
      | None => None
      end
  end.

(** [scan_dynamodb_table(table_name)], lines 31-93: every item of every
    page, with no condition on the item. *)
Definition scan_dynamodb_table (pages : list (option (list (dict attr))))
  : option (list row) :=
  scan_pages pages [].

(** [df[name]]: the column of a data frame made of a list of rows, with
    [None] where a row has no such key. *)
Definition column (name : string) (df : list row) : list cell :=
  map (fun r => dict_get_default r name CNone) df.

(** [df[name] = values] followed by [df.dropna(subset=[name])]: every row
    is given its value, and the rows whose value is missing are dropped. *)
Fixpoint assign_dropna {A B} (df : list A) (values : list (option B))
  : list (A * B) :=
  match df, values with
  | r :: df', Some v :: values' => (r, v) :: assign_dropna df' values'
  | _ :: df', None :: values' => assign_dropna df' values'
  | _, _ => []
  end.

(** Lines 127-130: the column [pickup_datetime] is converted, and the rows
    whose value comes out missing are dropped. *)
Definition parse_dates (rows : list row) : list (row * date) :=
  assign_dropna rows (to_datetime (column "pickup_datetime" rows)).

(** Lines 134-137: the column [fare_amount] of the frame the first
    [dropna] has left is converted, and the rows whose value comes out
    missing are dropped. *)
Definition parse_fares (dated : list (row * date)) : list (row * date * float) :=
  assign_dropna dated (to_numeric (column "fare_amount" (map fst dated))).

(** The data frame after line 138, and its column [pickup_date] (line
    147): the date, the fare and the [trip_id] cell of every row that
    survives both [dropna]. *)
Definition data_frame (rows : list row) : list (date * float * cell) :=
  map (fun u =>
         (snd (fst u), snd u, dict_get_default (fst (fst u)) "trip_id" CNone))
    (parse_fares (parse_dates rows)).

(** The number of missing values of a converted column. *)
Definition missing {B} (values : list (option B)) : nat :=
  length (filter (fun v => match v with None => true | Some _ => false end)
            values).

(** The three cells of a row the job reads. *)
Definition kpi_columns (r : row) : cell * cell * cell :=
  (dict_get_default r "pickup_datetime" CNone,
   dict_get_default r "fare_amount" CNone,
   dict_get_default r "trip_id" CNone).

(** [df.groupby("pickup_date")], the group of one date. *)
Definition group (d : date) (df : list (date * float * cell))
  : list (date * float * cell) :=
  filter (fun u => if date_eq_dec (fst (fst u)) d then true else false) df.

(** The fares of the group: what [sum], [mean], [max] and [min] of lines
    150-172 are taken over. *)
Definition fares (d : date) (df : list (date * float * cell)) : list float :=
  map (fun u => snd (fst u)) (group d df).

Definition is_null (c : cell) : bool :=
  match c with
  | CNone => true
  | _ => false
  end.

(** [groupby("pickup_date")["trip_id"].count()], line 157: the rows of the
    group whose [trip_id] is not missing. *)
Definition trip_count (d : date) (df : list (date * float * cell)) : nat :=
  length (filter (fun u => negb (is_null (snd u))) (group d df)).

(** The count and the fares of one date as the job takes them from the
    table; [None] when the job exits at line 103 (the scan failed or found
    nothing). *)
Definition daily_kpi (pages : list (option (list (dict attr)))) (d : date)
  : option (nat * list float) :=
  match scan_dynamodb_table pages with
  | None => None
  | Some [] => None
  | Some rows =>
      Some (trip_count d (data_frame rows), fares d (data_frame rows))
  end.

(** *** Facts about the scan *)

Lemma convert_page_app page : forall items,
  convert_page page items =
  match convert_page page [] with
  | Some converted => Some (items ++ converted)
  | None => None
  end.
Proof.
  induction page as [|item rest IH]; intros items; simpl.
  - now rewrite app_nil_r.
  - destruct (convert_item item) as [r|]; auto.
    rewrite (IH (items ++ [r])), (IH [r]).
    destruct (convert_page rest []); auto.
    now rewrite <- app_assoc.
Qed.

Lemma scan_one_more item page r rows :
  convert_item item = Some r ->
  scan_dynamodb_table [Some page] = Some rows ->
  scan_dynamodb_table [Some (item :: page)] = Some (r :: rows).
Proof.
  unfold scan_dynamodb_table. simpl. intros -> H.
  rewrite convert_page_app.
  destruct (convert_page page []) as [converted|]; [|discriminate].
  now injection H as ->.
Qed.

(** *** The data frame *)

Lemma assign_dropna_map {A A' B} (f : A -> A') (df : list A) :
  forall values : list (option B),
    assign_dropna (map f df) values =
    map (fun u => (f (fst u), snd u)) (assign_dropna df values).
Proof.
  induction df as [|r df IH]; intros [|[v|] values]; simpl; auto.
  now rewrite IH.
Qed.

Lemma assign_dropna_all {A B} (df : list A) : forall vs : list B,
  assign_dropna df (map Some vs) = combine df vs.
Proof.
  induction df as [|r df IH]; intros [|v vs]; simpl; auto. now rewrite IH.
Qed.

Lemma map_fst_combine {A B} (l : list A) : forall l' : list B,
  length l' = length l -> map fst (combine l l') = l.
Proof.
  induction l as [|a l IH]; intros [|b l'] H; simpl in *; try discriminate;
    auto.
  rewrite IH; auto.
Qed.

(** The frame as a function of the three columns. *)
Definition frame_of_columns (columns : list (cell * cell * cell))
  : list (date * float * cell) :=
  let dated :=
    assign_dropna columns (to_datetime (map (fun c => fst (fst c)) columns)) in
  let priced :=
    assign_dropna dated
      (to_numeric (map (fun u => snd (fst (fst u))) dated)) in
  map (fun u => (snd (fst u), snd u, snd (fst (fst u)))) priced.

Lemma data_frame_columns rows :
  data_frame rows = frame_of_columns (map kpi_columns rows).
Proof.
  unfold data_frame, parse_fares, parse_dates, frame_of_columns, column.
  rewrite !map_map. cbn [kpi_columns fst snd].
  rewrite assign_dropna_map, !map_map. cbn [fst snd].
  rewrite assign_dropna_map, !map_map. cbn [fst snd].
  reflexivity.
Qed.

Lemma assign_dropna_length {A B} (df : list A) :
  forall values : list (option B),
    length values = length df ->
    length (assign_dropna df values) + missing values = length df.
Proof.
  unfold missing.
  induction df as [|r df IH]; intros [|[v|] values] H; simpl in *;
    try discriminate; auto;
    injection H as H; specialize (IH _ H); lia.
Qed.

Lemma data_frame_all_read rows : forall ds xs,
  map (fun u : row * date * float =>
         (snd (fst u), snd u, dict_get_default (fst (fst u)) "trip_id" CNone))
    (combine (combine rows ds) xs) =
  combine (combine ds xs) (column "trip_id" rows).
Proof.
  induction rows as [|r rows IH]; intros [|d ds] [|x xs]; simpl; auto.
  now rewrite IH.
Qed.

(** *** The KPI job: what the design document states *)

(** C9, as the code has it. The scan has no condition on the record type:
    (1) an item of the table, raw or completed, becomes a row of the scan;
    (2) the frame the aggregates are taken over is a function of the
    [pickup_datetime], [fare_amount] and [trip_id] cells of the rows:
    rows that differ elsewhere, in [SK], [data_type] or [status], give the
    same frame; (3) when pandas reads every [pickup_datetime] of the scan
    as a date and every [fare_amount] as a number, every row of the scan,
    the one of the item among them, is in the frame with its date, its
    fare and its [trip_id]; (4) the conversions keeping the length of a
    column, the frame has as many rows as the scan, less the dates and the
    fares that come out missing. *)
Theorem C9_every_scanned_item_counts item page r rows :
  convert_item item = Some r ->
  scan_dynamodb_table [Some page] = Some rows ->
  scan_dynamodb_table [Some (item :: page)] = Some (r :: rows) /\
  (forall others,
     map kpi_columns others = map kpi_columns (r :: rows) ->
     data_frame others = data_frame (r :: rows)) /\
  (forall ds xs,
     to_datetime (column "pickup_datetime" (r :: rows)) = map Some ds ->
     length ds = length (r :: rows) ->
     to_numeric (column "fare_amount" (r :: rows)) = map Some xs ->
     data_frame (r :: rows) =
       combine (combine ds xs) (column "trip_id" (r :: rows))) /\
  (let read_dates := to_datetime (column "pickup_datetime" (r :: rows)) in
   let read_fares :=
     to_numeric (column "fare_amount" (map fst (parse_dates (r :: rows)))) in
   length read_dates = length (r :: rows) ->
   length read_fares = length (parse_dates (r :: rows)) ->
   length (data_frame (r :: rows)) + missing read_dates + missing read_fares =
     length (r :: rows)).
Proof.
  intros Hitem Hscan. split; [now apply scan_one_more|].
  split; [|split].
  - intros others Hcolumns. now rewrite !data_frame_columns, Hcolumns.
  - intros ds xs Hds Hlen Hxs. unfold data_frame, parse_fares, parse_dates.
    rewrite Hds, assign_dropna_all, map_fst_combine by exact Hlen.
    rewrite Hxs, assign_dropna_all. apply data_frame_all_read.
  - intros read_dates read_fares Hdates Hfares.
    pose proof (assign_dropna_length (r :: rows) read_dates Hdates) as H1.
    pose proof (assign_dropna_length (parse_dates (r :: rows)) read_fares
                  Hfares) as H2.
    change (assign_dropna (r :: rows) read_dates)
      with (parse_dates (r :: rows)) in H1.
    unfold data_frame. rewrite length_map.
    change (parse_fares (parse_dates (r :: rows)))
      with (assign_dropna (parse_dates (r :: rows)) read_fares).
    rewrite <- H1, <- H2. apply Nat.add_shuffle0.
Qed.

(** *** More about the scan *)

Lemma convert_page_split page1 page2 : forall items,
  convert_page (page1 ++ page2) items =
  match convert_page page1 items with
  | Some items' => convert_page page2 items'
  | None => None
  end.
Proof.
  induction page1 as [|item rest IH]; intros items; simpl; auto.
  destruct (convert_item item); auto.
Qed.

Lemma scan_pages_served pages : forall items,
  scan_pages (map Some pages) items = convert_page (concat pages) items.
Proof.
  induction pages as [|page rest IH]; intros items; simpl; auto.
  rewrite convert_page_split.
  destruct (convert_page page items); auto.
Qed.

(** X14: paging does not show in the result: when every call is served, the
    scan of a table delivered in pages is the conversion of the items of
    all pages, in order, as if they had come in one page. *)
Theorem scan_joins_pages pages :
  scan_dynamodb_table (map Some pages) =
  scan_dynamodb_table [Some (concat pages)].
Proof.
  unfold scan_dynamodb_table. rewrite scan_pages_served. simpl.
  now destruct (convert_page (concat pages) []).
Qed.

Lemma scan_pages_failed_call after : forall before items,
  scan_pages (before ++ None :: after) items = None.
Proof.
  induction before as [|[page|] rest IH]; intros items; simpl; auto.
  destruct (convert_page page items); auto.
Qed.

(** X15: a [scan] call that raises loses the whole scan: the result is [None]
    whatever the pages before it held and whatever would have followed. *)
Theorem scan_lost_on_failed_call before after :
  scan_dynamodb_table (before ++ None :: after) = None.
Proof. apply scan_pages_failed_call. Qed.

Lemma convert_fields_bad_number item : forall processed_item k n,
  In (k, AttrN n) item -> float_of_str n = None ->
  convert_fields item processed_item = None.
Proof.
  induction item as [|[k0 a0] rest IH]; intros acc k n Hin Hn; simpl in *;
    [contradiction|].
  destruct Hin as [Hin|Hin].
  - injection Hin as -> ->. now rewrite Hn.
  - destruct a0; try destruct (float_of_str n0); auto; eapply IH; eauto.
Qed.

Lemma convert_page_bad_item page : forall items item,
  In item page -> convert_item item = None -> convert_page page items = None.
Proof.
  induction page as [|item0 rest IH]; intros items item Hin Hbad; simpl in *;
    [contradiction|].
  destruct Hin as [->|Hin]; [now rewrite Hbad|].
  destruct (convert_item item0); auto. eapply IH; eauto.
Qed.

Lemma scan_pages_bad_item page item after : forall before items,
  In item page -> convert_item item = None ->
  scan_pages (before ++ Some page :: after) items = None.
Proof.
  induction before as [|[page0|] rest IH]; intros items Hin Hbad; simpl; auto.
  - now rewrite (convert_page_bad_item page items item Hin Hbad).
  - destruct (convert_page page0 items); auto.
Qed.

(** X16: one number attribute that [float] rejects, in any item of any page,
    loses the whole scan. *)
Theorem scan_lost_on_bad_number before page after item k n :
  In item page -> In (k, AttrN n) item -> float_of_str n = None ->
  scan_dynamodb_table (before ++ Some page :: after) = None.
Proof.
  intros Hitem Hfield Hn. apply (scan_pages_bad_item page item); auto.
  unfold convert_item.
  now rewrite (convert_fields_bad_number item [] k n Hfield Hn).
Qed.

(** *** More about the conversion of an item *)

(** What lines 62-67 make of one attribute value: nothing for a tag other
    than [S] and [N], and nothing for a number [float] rejects. *)
Definition cell_of_attr (a : attr) : option cell :=
  match a with
  | AttrS s => Some (CStr s)
  | AttrN n =>
      match float_of_str n with
      | Some x => Some (CNum x)
      | None => None
      end
  | _ => None
  end.

(** The columns the job needs (lines 72-76). *)
Definition required_columns : list string :=
  ["trip_id"; "pickup_datetime"; "fare_amount"].

Arguments convert_field : simpl never.

Lemma convert_field_get acc k0 a0 acc' k :
  convert_field acc (k0, a0) = Some acc' ->
  dict_get acc' k =
  if String.eqb k0 k
  then match cell_of_attr a0 with
       | Some c => Some c
       | None => dict_get acc k
       end
  else dict_get acc k.
Proof.
  unfold convert_field, cell_of_attr. intros H.
  destruct (String.eqb k0 k) eqn:E.
  - apply String.eqb_eq in E. subst k0.
    destruct a0; try destruct (float_of_str n); inversion H; subst; auto;
      apply dict_get_set_same.
  - apply String.eqb_neq in E.
    destruct a0; try destruct (float_of_str n); inversion H; subst; auto;
      now apply dict_get_set_other.
Qed.

Lemma convert_fields_untouched item : forall acc processed_item k,
  convert_fields item acc = Some processed_item ->
  ~ In k (dict_keys item) ->
  dict_get processed_item k = dict_get acc k.
Proof.
  induction item as [|[k0 a0] rest IH]; intros acc r k Hc Hk; simpl in *.
  - now injection Hc as ->.
  - destruct (convert_field acc (k0, a0)) as [acc'|] eqn:E; [|discriminate].
    rewrite (IH acc' r k Hc) by tauto.
    rewrite (convert_field_get _ _ _ _ k E).
    destruct (String.eqb k0 k) eqn:Ek; auto.
    apply String.eqb_eq in Ek. tauto.
Qed.

Lemma convert_fields_get item : forall acc processed_item k,
  dict_wf item ->
  convert_fields item acc = Some processed_item ->
  dict_get processed_item k =
  match dict_get item k with
  | Some a =>
      match cell_of_attr a with
      | Some c => Some c
      | None => dict_get acc k
      end
  | None => dict_get acc k
  end.
Proof.
  induction item as [|[k0 a0] rest IH]; intros acc r k Hwf Hc; simpl in *.
  - now injection Hc as ->.
  - inversion Hwf as [|? ? Hnotin Hwf']; subst.
    destruct (convert_field acc (k0, a0)) as [acc'|] eqn:E; [|discriminate].
    pose proof (convert_field_get _ _ _ _ k E) as Hfield.
    destruct (String.eqb k0 k) eqn:Ek.
    + apply String.eqb_eq in Ek. subst k0.
      now rewrite (convert_fields_untouched rest acc' r k Hc Hnotin).
    + rewrite (IH acc' r k Hwf' Hc), Hfield. reflexivity.
Qed.

Lemma ensure_key_get (r : row) k0 k :
  dict_get (ensure_key r k0) k =
  if String.eqb k0 k then Some (dict_get_default r k CNone) else dict_get r k.
Proof.
  unfold ensure_key. destruct (String.eqb k0 k) eqn:E.
  - apply String.eqb_eq in E. subst. apply dict_get_set_same.
  - apply String.eqb_neq in E. now apply dict_get_set_other.
Qed.

(** X17: the row made of an item holds the string or the float of every [S] and
    [N] attribute under its key, [None] under each of the three required
    columns the item does not give such a value for, and nothing else:
    attributes of every other type are left out. *)
Theorem convert_item_fields item r k :
  dict_wf item ->
  convert_item item = Some r ->
  dict_get r k =
  match
    match dict_get item k with
    | Some a => cell_of_attr a
    | None => None
    end
  with
  | Some c => Some c
  | None => if in_list k required_columns then Some CNone else None
  end.
Proof.
  intros Hwf. unfold convert_item.
  destruct (convert_fields item []) as [processed_item|] eqn:E;
    [|discriminate].
  intros H. injection H as <-.
  pose proof (convert_fields_get item [] processed_item k Hwf E) as Hp.
  assert (dict_get processed_item k =
          match dict_get item k with
          | Some a => cell_of_attr a
          | None => None
          end) as Hget.
  { rewrite Hp. destruct (dict_get item k) as [a|]; auto.
    now destruct (cell_of_attr a). }
  rewrite <- Hget. rewrite !ensure_key_get.
  destruct ("fare_amount" =? k) eqn:E3;
    [|destruct ("pickup_datetime" =? k) eqn:E2;
      [|destruct ("trip_id" =? k) eqn:E1]];
    try (match goal with H : (_ =? k) = true |- _ =>
           apply String.eqb_eq in H; subst k
         end;
         unfold dict_get_default; rewrite ?ensure_key_get; simpl;
         match goal with |- context [dict_get processed_item ?c] =>
           now destruct (dict_get processed_item c)
         end).
  assert (in_list k required_columns = false) as ->.
  { unfold in_list, required_columns. cbn [existsb].
    rewrite (String.eqb_sym k "trip_id"), (String.eqb_sym k "pickup_datetime"),
      (String.eqb_sym k "fare_amount"), E1, E2, E3. reflexivity. }
  now destruct (dict_get processed_item k).
Qed.

Lemma convert_item_required item r k :
  convert_item item = Some r -> In k required_columns -> dict_mem r k = true.
Proof.
  unfold convert_item.
  destruct (convert_fields item []) as [processed_item|]; [|discriminate].
  intros H Hk. injection H as <-. unfold ensure_key at 1 2 3.
  simpl in Hk. destruct Hk as [<-|[<-|[<-|[]]]].
  - do 2 apply dict_mem_set_mono. apply dict_mem_set_same.
  - apply dict_mem_set_mono. apply dict_mem_set_same.
  - apply dict_mem_set_same.
Qed.

Lemma convert_page_rows (P : row -> Prop) page : forall items rows,
  (forall item r, convert_item item = Some r -> P r) ->
  (forall r, In r items -> P r) ->
  convert_page page items = Some rows ->
  forall r, In r rows -> P r.
Proof.
  induction page as [|item rest IH]; intros items rows Hconv Hitems Hc;
    simpl in Hc.
  - now injection Hc as <-.
  - destruct (convert_item item) as [r0|] eqn:E; [|discriminate].
    apply (IH (items ++ [r0]) rows Hconv); auto.
    intros r Hin. apply in_app_or in Hin as [Hin|[<-|[]]]; eauto.
Qed.

Lemma scan_pages_rows (P : row -> Prop) pages : forall items rows,
  (forall item r, convert_item item = Some r -> P r) ->
  (forall r, In r items -> P r) ->
  scan_pages pages items = Some rows ->
  forall r, In r rows -> P r.
Proof.
  induction pages as [|[page|] rest IH]; intros items rows Hconv Hitems Hs;
    simpl in Hs; [now injection Hs as <-| |discriminate].
  destruct (convert_page page items) as [items'|] eqn:E; [|discriminate].
  apply (IH items' rows Hconv); auto.
  now apply (convert_page_rows P page items items').
Qed.

(** X18: every row of a scan has the three columns the job needs, so the check
    of lines 115-123 never fails on a scan that returned rows. *)
Theorem scanned_rows_have_required_columns pages rows r k :
  scan_dynamodb_table pages = Some rows ->
  In r rows -> In k required_columns ->
  dict_mem r k = true.
Proof.
  intros Hscan Hr Hk.
  refine (scan_pages_rows (fun r => dict_mem r k = true) pages [] rows
            _ _ Hscan r Hr).
  - intros item r0 H. now apply (convert_item_required item).
  - intros r0 [].
Qed.



End Job.

Arguments CStr {float} s.
Arguments CNum {float} x.
Arguments CNone {float}.

(** *** Worked example

    In the example a float is stood for by its text and a date by the
    first ten characters of a time stamp. *)

Definition text_float (s : string) : option string := Some s.

(** The first string of a column. *)
Fixpoint first_text (col : list (cell string)) : option string :=
  match col with
  | [] => None
  | CStr s :: _ => Some s
  | _ :: rest => first_text rest
  end.

(** A reading of a column of time stamps that settles the format on the
    first string of the column, here by the character between the day and
    the hour, and reads a cell that has another one as missing. *)
Definition text_to_datetime (col : list (cell string)) : list (option string) :=
  match first_text col with
  | None => map (fun _ => None) col
  | Some s0 =>
      map (fun c =>
             match c with
             | CStr s =>
                 if String.eqb (substring 10 1 s) (substring 10 1 s0)
                 then Some (substring 0 10 s)
                 else None
             | _ => None
             end)
        col
  end.

Definition text_to_numeric (col : list (cell string)) : list (option string) :=
  map (fun c =>
         match c with
         | CStr s => Some s
         | CNum x => Some x
         | CNone => None
         end)
    col.

(** A raw trip start, as the producer may store it, with a fare. *)
Definition raw_start_T9 : dict attr :=
  [ ("PK", AttrS "T9");
    ("SK", AttrS "RAW#trip_start#2025-05-22T09:00:00");
    ("data_type", AttrS "trip_start");
    ("status", AttrS "pending");
    ("trip_id", AttrS "T9");
    ("pickup_datetime", AttrS "2025-05-22T09:00:00");
    ("fare_amount", AttrN "12.5") ].

(** C9: the table holds one raw event and no completed trip, and the raw
    event is the trip counted, and its fare the fare aggregated, for its
    pickup date. *)
Lemma C9_raw_event_counted :
  attr_S_of raw_start_T9 "SK" = Some "RAW#trip_start#2025-05-22T09:00:00" /\
  daily_kpi string text_float string string_dec text_to_datetime
    text_to_numeric [Some [raw_start_T9]] "2025-05-22" = Some (1, ["12.5"]).
Proof. split; reflexivity. Qed.

Definition raw_start_T9_row : row string :=
  [ ("PK", CStr "T9");
    ("SK", CStr "RAW#trip_start#2025-05-22T09:00:00");
    ("data_type", CStr "trip_start");
    ("status", CStr "pending");
    ("trip_id", CStr "T9");
    ("pickup_datetime", CStr "2025-05-22T09:00:00");
    ("fare_amount", CNum "12.5") ].

(** A completed trip of the day before. *)
Definition completed_T5 : dict attr :=
  [ ("PK", AttrS "T5");
    ("SK", AttrS "COMPLETED#2025-05-21T18:00:00");
    ("data_type", AttrS "completed_trip");
    ("status", AttrS "completed");
    ("trip_id", AttrS "T5");
    ("pickup_datetime", AttrS "2025-05-21T17:30:00");
    ("fare_amount", AttrN "20.0") ].

Definition completed_T5_row : row string :=
  [ ("PK", CStr "T5");
    ("SK", CStr "COMPLETED#2025-05-21T18:00:00");
    ("data_type", CStr "completed_trip");
    ("status", CStr "completed");
    ("trip_id", CStr "T5");
    ("pickup_datetime", CStr "2025-05-21T17:30:00");
    ("fare_amount", CNum "20.0") ].

(** The raw event is scanned with the completed trip; rows that hold the
    three cells and nothing else give the same frame; and both rows are in
    the frame. *)
Lemma C9_every_scanned_item_counts_witness :
  scan_dynamodb_table string text_float [Some [raw_start_T9; completed_T5]] =
    Some [raw_start_T9_row; completed_T5_row] /\
  data_frame string string text_to_datetime text_to_numeric
    [ [ ("pickup_datetime", CStr "2025-05-22T09:00:00");
        ("fare_amount", CNum "12.5");
        ("trip_id", CStr "T9") ];
      [ ("pickup_datetime", CStr "2025-05-21T17:30:00");
        ("fare_amount", CNum "20.0");
        ("trip_id", CStr "T5") ] ] =
    data_frame string string text_to_datetime text_to_numeric
      [raw_start_T9_row; completed_T5_row] /\
  data_frame string string text_to_datetime text_to_numeric
    [raw_start_T9_row; completed_T5_row] =
    [ ("2025-05-22", "12.5", CStr "T9"); ("2025-05-21", "20.0", CStr "T5") ] /\
  length (data_frame string string text_to_datetime text_to_numeric
            [raw_start_T9_row; completed_T5_row]) + 0 + 0 = 2.
Proof.
  destruct (C9_every_scanned_item_counts string text_float string
              text_to_datetime text_to_numeric raw_start_T9 [completed_T5]
              raw_start_T9_row [completed_T5_row] eq_refl eq_refl)
    as (Hscan & Hcolumns & Hread & Hlength).
  split; [exact Hscan|]. split; [|split].
  - apply Hcolumns. reflexivity.
  - apply (Hread ["2025-05-22"; "2025-05-21"] ["12.5"; "20.0"]); reflexivity.
  - apply Hlength; reflexivity.
Defined.

(** What a cell is read as depends on its column: a time stamp written
    with a blank between the day and the hour is read as a date when it
    stands alone, and as missing after a time stamp written with a [T], so
    the same item is counted in one scan and left out in the other. *)
Example row_survival_depends_on_the_column :
  let blank_T6 : row string :=
    [ ("trip_id", CStr "T6");
      ("pickup_datetime", CStr "2025-05-22 11:00:00");
      ("fare_amount", CNum "8.0") ] in
  data_frame string string text_to_datetime text_to_numeric [blank_T6] =
    [ ("2025-05-22", "8.0", CStr "T6") ] /\
  data_frame string string text_to_datetime text_to_numeric
    [raw_start_T9_row; blank_T6] =
    [ ("2025-05-22", "12.5", CStr "T9") ].
Proof. split; reflexivity. Qed.

(** *** Worked examples for the further properties *)

(** A [float] that rejects the empty text. *)
Definition strict_float (s : string) : option string :=
  if String.eqb s "" then None else Some s.

Definition unpriced_T8 : dict attr :=
  [ ("PK", AttrS "T8");
    ("SK", AttrS "COMPLETED#2025-05-21T18:00:00");
    ("pickup_datetime", AttrS "2025-05-21T17:30:00");
    ("fare_amount", AttrN "") ].

Lemma scan_lost_on_bad_number_witness :
  scan_dynamodb_table string strict_float
    ([Some [raw_start_T9]] ++ Some [raw_start_T9; unpriced_T8] :: [None]) =
  None.
Proof.
  apply (scan_lost_on_bad_number string strict_float [Some [raw_start_T9]]
           [raw_start_T9; unpriced_T8] [None] unpriced_T8 "fare_amount" "").
  - simpl. tauto.
  - simpl. tauto.
  - reflexivity.
Defined.

Definition flagged_T7 : dict attr :=
  [ ("PK", AttrS "T7");
    ("SK", AttrS "COMPLETED#2025-05-21T18:00:00");
    ("fare_amount", AttrN "9.75");
    ("shared", AttrBOOL true) ].

Definition flagged_T7_row : row string :=
  [ ("PK", CStr "T7");
    ("SK", CStr "COMPLETED#2025-05-21T18:00:00");
    ("fare_amount", CNum "9.75");
    ("trip_id", CNone);
    ("pickup_datetime", CNone) ].

Lemma convert_item_fields_witness :
  dict_get flagged_T7_row "pickup_datetime" = Some CNone.
Proof.
  apply (convert_item_fields string text_float flagged_T7 flagged_T7_row
           "pickup_datetime").
  - unfold dict_wf. simpl. repeat constructor; simpl; intuition discriminate.
  - reflexivity.
Defined.

Lemma scanned_rows_have_required_columns_witness :
  dict_mem flagged_T7_row "trip_id" = true.
Proof.
  apply (scanned_rows_have_required_columns string text_float
           [Some [raw_start_T9]; Some [flagged_T7]]
           [raw_start_T9_row; flagged_T7_row] flagged_T7_row "trip_id").
  - reflexivity.
  - simpl. tauto.
  - simpl. tauto.
Defined.

End GlueScripts.
